(** * GraphLab: edge-list and adjacency-list graph representations

    A shallow embedding of [graph.py]: the two graph classes [GraphEL] and
    [GraphAL], their conversions and comparisons, the cyclic shuffle and the
    random connected graph generator, followed by the properties the
    specification states about them. *)

From Stdlib Require Import ZArith Lia.
From stdpp Require Import base numbers list sets gmap.

Local Open Scope Z_scope.
#[local] Set Warnings "-clear-no-such-hyp".

(** ** Python run-time: exceptions *)

(** The exceptions the modelled code can raise: a failed [assert], an index
    outside a list, and an empty range handed to [random.randrange]. *)
Inductive exn : Set := AssertionError | IndexError | ValueError.

(** The outcome of a call: a value, or a raised exception. *)
Inductive result (A : Type) : Type :=
  | Ok (a : A)
  | Raise (e : exn).
Arguments Ok {A} a.
Arguments Raise {A} e.

Definition result_bind {A B} (f : A → result B) (m : result A) : result B :=
  match m with
  | Ok a => f a
  | Raise e => Raise e
  end.

#[global] Instance result_mbind : MBind result := @result_bind.
#[global] Instance result_mret : MRet result := @Ok.

(** What [==] evaluates to: [__eq__] may return a boolean, or fall off its
    end and return [None]. *)
Inductive pyvalue : Set :=
  | PyBool (b : bool)
  | PyNone.

(** Truth value of a [pyvalue], as [assert] and [if] test it. *)
Definition truthy (v : pyvalue) : bool :=
  match v with
  | PyBool b => b
  | PyNone => false
  end.

(** A [for] loop over [xs] whose body updates the loop state and may raise. *)
Fixpoint for_ {A S} (xs : list A) (body : A → S → result S) (s : S) : result S :=
  match xs with
  | [] => Ok s
  | x :: xs' => s' ← body x s; for_ xs' body s'
  end.

(** ** Python run-time: lists *)

(** [l[i]] for an index already known to be non-negative. *)
Definition item {A} (l : list A) (i : nat) : result A :=
  match l !! i with
  | Some a => Ok a
  | None => Raise IndexError
  end.

(** Python subscript normalisation: a negative index counts from the end. *)
Definition index_of {A} (l : list A) (i : Z) : result nat :=
  let n := Z.of_nat (length l) in
  if decide (0 ≤ i < n) then Ok (Z.to_nat i)
  else if decide (- n ≤ i < 0) then Ok (Z.to_nat (n + i))
  else Raise IndexError.

(** [l[i]] for an arbitrary integer subscript. *)
Definition getitem {A} (l : list A) (i : Z) : result A :=
  k ← index_of l i; item l k.

(** [l[i], l[j] = l[j], l[i]]: both reads happen before both writes. *)
Definition swap {A} (l : list A) (i j : nat) : result (list A) :=
  lj ← item l j;
  li ← item l i;
  Ok (<[j := li]> (<[i := lj]> l)).

(** ** Python run-time: the random generator *)

(** The process-wide generator, as the stream of raw draws still to come. *)
Definition rng : Type := nat → nat.

(** [_randbelow(n)] for [n > 0]: the next draw, reduced to [[0, n)]. *)
Definition randbelow (n : nat) (g : rng) : nat * rng :=
  ((g 0 `mod` n)%nat, λ k, g (S k)).

(** [random.randrange(start, stop)]: an element of [[start, stop)], or
    [ValueError] when the range is empty. *)
Definition randrange (start stop : nat) (g : rng) : result (nat * rng) :=
  if decide (start < stop)%nat then
    let '(r, g') := randbelow (stop - start) g in Ok ((start + r)%nat, g')
  else Raise ValueError.

(** [random.shuffle(x)], CPython's loop:
    [for i in reversed(range(1, len(x))): j = randbelow(i + 1); swap i j]. *)
Definition shuffle {A} (x : list A) (g : rng) : result (list A * rng) :=
  for_ (reverse (seq 1 (length x - 1)))
       (λ i '(x, g),
          let '(j, g) := randbelow (i + 1) g in
          x ← swap x i j; Ok (x, g))
       (x, g).

(** ** The data model *)

Abbreviation edge := (Z * Z)%type.

Module EL.
(** An instance of [class GraphEL]. *)
Record t : Type := mk {
  nvertices : Z;
  edges : list edge;
  directed : bool
}.
End EL.

Module AL.
(** An instance of [class GraphAL]. *)
Record t : Type := mk {
  nvertices : Z;
  neighbors : list (list Z);
  directed : bool
}.
End AL.

Abbreviation GraphEL := EL.t.
Abbreviation GraphAL := AL.t.

(** The data-model constraint on edges: every endpoint of every edge is a
    vertex id of [[0, n)]. *)
Definition in_range (n : Z) (es : list edge) : Prop :=
  ∀ a b, (a, b) ∈ es → 0 ≤ a < n ∧ 0 ≤ b < n.

(** The data-model invariant of an edge-list graph: endpoints in range, and
    an undirected graph holds each edge in both directions. *)
Definition well_formed (g : GraphEL) : Prop :=
  in_range (EL.nvertices g) (EL.edges g)
  ∧ (EL.directed g = false →
     ∀ a b, (a, b) ∈ EL.edges g → (b, a) ∈ EL.edges g).

(** A graph value of either representation, the argument of [__eq__]. *)
Inductive graph : Type :=
  | OfEL (g : GraphEL)
  | OfAL (g : GraphAL).

(** ** [cycle_shuffle] *)

(** [cycle_shuffle(l)]: for [i] in [range(n-1)], swap position [i] with a
    random position [j] of [[i+1, n)]. The list is updated in place; the
    model returns the updated list. *)
Definition cycle_shuffle {A} (l : list A) (g : rng) : result (list A * rng) :=
  let n := length l in
  for_ (seq 0 (n - 1))
       (λ i '(l, g),
          '(j, g) ← randrange (i + 1) n g;
          l ← swap l i j; Ok (l, g))
       (l, g).

(** ** Pieces of [randgraph] *)

(** The first loop of [randgraph]: [edges.add((line[i], line[i+1]))] for
    [i] in [range(len(line) - 1)]. *)
Definition path_edges (line : list Z) : result (gset edge) :=
  for_ (seq 0 (length line - 1))
       (λ i (edges : gset edge),
          a ← item line i;
          b ← item line (i + 1);
          Ok ({[ (a, b) ]} ∪ edges))
       ∅.

(** The comprehension
    [[(v1, v2) for v1 in range(n) for v2 in range(n) if v1 != v2]]. *)
Definition all_edges (nvertices : Z) : list edge :=
  v1 ← seqZ 0 nvertices;
  v2 ← seqZ 0 nvertices;
  if decide (v1 ≠ v2) then [(v1, v2)] else [].

(** The last loop of [randgraph], entered with [nedges > 0]: walk the
    shuffled edges, add each one not yet present, and [break] once [nedges]
    has dropped to zero. *)
Fixpoint extra_edges (all : list edge) (edges : gset edge) (nedges : Z) : gset edge :=
  match all with
  | [] => edges
  | e :: rest =>
      if decide (e ∉ edges) then
        let edges := {[ e ]} ∪ edges in
        let nedges := nedges - 1 in
        if decide (nedges ≤ 0) then edges else extra_edges rest edges nedges
      else extra_edges rest edges nedges
  end.

Section Graph.

(** Python leaves the iteration order of a [set] unspecified. [list_of_set]
    is [list(s)] for a set [s]: some enumeration of its elements. The
    definitions take it as a parameter; the properties assume of it only that
    it lists every element of [s] once. *)
Context (list_of_set : ∀ (A : Type) `{Countable A}, gset A → list A).
Local Abbreviation list_ s := (list_of_set _ _ _ s).

(** *** class GraphEL *)

(** [GraphEL.__init__(nvertices, edges, directed)]. *)
Definition GraphEL_init (nvertices : Z) (edges : list edge) (directed : bool) : GraphEL :=
  if directed then EL.mk nvertices edges directed
  else
    let s := foldl (λ (s : gset edge) '(v1, v2), {[ (v2, v1) ]} ∪ ({[ (v1, v2) ]} ∪ s))
                   ∅ edges in
    EL.mk nvertices (list_ s) directed.

(** [GraphEL.undirected]. *)
Definition undirected (self : GraphEL) : result GraphEL :=
  if EL.directed self then
    Ok (GraphEL_init (EL.nvertices self) (EL.edges self) false)
  else Raise AssertionError.

(** *** class GraphAL *)

(** [GraphAL.__init__(nvertices, edges, directed)]. *)
Definition GraphAL_init (nvertices : Z) (edges : list edge) (directed : bool) : result GraphAL :=
  if directed then
    neighbors ← for_ edges
        (λ '(v1, v2) (neighbors : list (list Z)),
           k ← index_of neighbors v1;
           Ok (alter (λ nb, nb ++ [v2]) k neighbors))
        (replicate (Z.to_nat nvertices) []);
    Ok (AL.mk nvertices neighbors directed)
  else
    neighbors ← for_ edges
        (λ '(v1, v2) (neighbors : list (gset Z)),
           k1 ← index_of neighbors v1;
           let neighbors := alter (λ nb, {[ v2 ]} ∪ nb) k1 neighbors in
           k2 ← index_of neighbors v2;
           Ok (alter (λ nb, {[ v1 ]} ∪ nb) k2 neighbors))
        (replicate (Z.to_nat nvertices) ∅);
    lists ← for_ (seqZ 0 nvertices)
        (λ v (lists : list (list Z)),
           nb ← getitem neighbors v;
           Ok (lists ++ [list_ nb]))
        [];
    Ok (AL.mk nvertices lists directed).

(** [GraphEL.toGraphAL]. *)
Definition toGraphAL (self : GraphEL) : result GraphAL :=
  GraphAL_init (EL.nvertices self) (EL.edges self) (EL.directed self).

(** [GraphAL.toGraphEL]. *)
Definition toGraphEL (self : GraphAL) : result GraphEL :=
  edges ← for_ (seqZ 0 (AL.nvertices self))
      (λ v1 (edges : list edge),
         nb ← getitem (AL.neighbors self) v1;
         Ok (edges ++ ((λ v2, (v1, v2)) <$> nb)))
      [];
  Ok (GraphEL_init (AL.nvertices self) edges (AL.directed self)).

(** [GraphEL.__eq__(self, g)]. *)
Definition GraphEL_eq (self : GraphEL) (g : graph) : result pyvalue :=
  g ← match g with
      | OfAL g => toGraphEL g
      | OfEL g => Ok g
      end;
  if negb (bool_decide (EL.directed self = EL.directed g)) then Ok (PyBool false)
  else if negb (bool_decide (EL.nvertices self = EL.nvertices g)) then Ok (PyBool false)
  else Ok (PyBool (bool_decide
         (list_to_set (EL.edges self) =@{gset edge} list_to_set (EL.edges g)))).

(** [GraphAL.__eq__(self, g)]: the comparison is evaluated and its value
    dropped; the method ends without a [return]. *)
Definition GraphAL_eq (self : GraphAL) (g : graph) : result pyvalue :=
  el ← toGraphEL self;
  _ ← GraphEL_eq el g;
  Ok PyNone.

(** The check of the test loop:
    [g_al = g_el.toGraphAL(); assert g_el == g_al.toGraphEL()]. *)
Definition roundtrip (g_el : GraphEL) : result unit :=
  g_al ← toGraphAL g_el;
  g' ← toGraphEL g_al;
  v ← GraphEL_eq g_el (OfEL g');
  if truthy v then Ok () else Raise AssertionError.

(** *** [randgraph] *)

(** [randgraph(nvertices, nedges)]. *)
Definition randgraph (nvertices nedges : Z) (g : rng) : result (GraphEL * rng) :=
  if decide (nedges ≤ nvertices * (nvertices - 1) - (nvertices - 1)) then
    '(line, g) ← cycle_shuffle (seqZ 0 nvertices) g;
    edges ← path_edges line;
    let all := all_edges nvertices in
    if decide (Z.of_nat (length all) = nvertices * (nvertices - 1)) then
      '(all, g) ← shuffle all g;
      let edges :=
        if decide (0 < nedges) then extra_edges all edges nedges else edges in
      Ok (GraphEL_init nvertices (list_ edges) true, g)
    else Raise AssertionError
  else Raise AssertionError.

End Graph.

(** ** Sample run-time choices *)

(** One admissible iteration order for sets: stdpp's [elements]. *)
Definition elements_order : ∀ (A : Type) `{Countable A}, gset A → list A :=
  λ A _ _ s, elements s.

(** Two random sources: every draw zero, and the draws 0, 1, 2, ... *)
Definition zero_draws : rng := λ _, 0%nat.
Definition counting_draws : rng := λ k, k.

(** ** The module's self-test *)

Section Script.

Context (list_of_set : ∀ (A : Type) `{Countable A}, gset A → list A).

(** The body of the test loop: draw [nvertices] from [[2, 20)] and [nedges]
    from [[0, max_nedges]], generate a graph, and run [roundtrip] on it and
    on its undirected version. *)
Definition trial (g : rng) : result rng :=
  '(nvertices, g) ← randrange 2 20 g;
  let nvertices := Z.of_nat nvertices in
  let max_edges := nvertices * (nvertices - 1) in
  let max_nedges := max_edges - nvertices + 1 in
  '(nedges, g) ← randrange 0 (Z.to_nat (max_nedges + 1)) g;
  '(g_el, g) ← randgraph list_of_set nvertices (Z.of_nat nedges) g;
  _ ← roundtrip list_of_set g_el;
  u ← undirected list_of_set g_el;
  _ ← roundtrip list_of_set u;
  Ok g.

(** The statements at module level, printing left out: the demonstration on
    [randgraph(4, 0)], then a hundred trials. *)
Definition script (g : rng) : result rng :=
  '(gr, g) ← randgraph list_of_set 4 0 g;
  _ ← toGraphAL list_of_set gr;
  gr ← undirected list_of_set gr;
  _ ← toGraphAL list_of_set gr;
  for_ (seq 0 100) (λ _ g, trial g) g.

End Script.

(** ** Vocabulary for the conversions *)

(** The targets of the edges that leave [v], in edge order, repeats kept. *)
Definition targets (v : Z) (es : list edge) : list Z :=
  omap (λ '(a, b), if decide (a = v) then Some b else None) es.

(** The edges that neighbour lists stand for when the first list belongs to
    vertex [v]: vertex by vertex, each list in its stored order. *)
Fixpoint edge_rows_from (v : Z) (nbs : list (list Z)) : list edge :=
  match nbs with
  | [] => []
  | nb :: rest => ((λ v2, (v, v2)) <$> nb) ++ edge_rows_from (v + 1) rest
  end.

Definition edge_rows (nbs : list (list Z)) : list edge := edge_rows_from 0 nbs.

(** How a shuffle moved the elements: [b] now stands where [a] stood. *)
Definition takes_place_of {A} (l l' : list A) (a b : A) : Prop :=
  ∃ p, l !! p = Some a ∧ l' !! p = Some b.

(** The vertex a subscript denotes in a list of length [n]: a negative
    subscript counts from the end. *)
Definition wrap (n v : Z) : Z := if decide (v < 0) then n + v else v.

(** The subscripts a list of length [n] accepts. *)
Definition subscript_ok (n v : Z) : Prop := - n ≤ v < n.

(** * Properties *)

(** ** The run-time model *)

Lemma bind_Ok {A B} (m : result A) (f : A → result B) b :
  m ≫= f = Ok b ↔ ∃ a, m = Ok a ∧ f a = Ok b.
Proof.
  destruct m as [a|e]; simpl; split.
  - intros H. by exists a.
  - by intros (a' & [= <-] & H).
  - discriminate.
  - by intros (a' & [=] & _).
Qed.

(** Loop rule: an invariant indexed by the iterations already done. Every
    iteration returns, so the loop returns. *)
Lemma for_invariant {A S} (I : list A → S → Prop) (xs : list A)
    (body : A → S → result S) (s : S) :
  I [] s →
  (∀ done x rest s, xs = done ++ x :: rest → I done s →
     ∃ s', body x s = Ok s' ∧ I (done ++ [x]) s') →
  ∃ s', for_ xs body s = Ok s' ∧ I xs s'.
Proof.
  intros H0 Hstep.
  cut (∀ rest done s, xs = done ++ rest → I done s →
         ∃ s', for_ rest body s = Ok s' ∧ I xs s').
  { intros Hcut. by apply (Hcut xs [] s). }
  clear s H0. intros rest. induction rest as [|x rest IH]; intros done s Hxs HI.
  - exists s. rewrite app_nil_r in Hxs. by subst.
  - destruct (Hstep done x rest s Hxs HI) as (s' & Hb & HI').
    destruct (IH (done ++ [x]) s') as (s'' & Hf & HI''); [|done|].
    + by rewrite <- app_assoc.
    + exists s''. simpl. by rewrite Hb.
Qed.

(** The same rule for an invariant that ignores the iteration count. *)
Lemma for_preserves {A S} (I : S → Prop) (xs : list A)
    (body : A → S → result S) (s : S) :
  I s →
  (∀ x s, x ∈ xs → I s → ∃ s', body x s = Ok s' ∧ I s') →
  ∃ s', for_ xs body s = Ok s' ∧ I s'.
Proof.
  intros H0 Hstep. apply (for_invariant (λ _, I)); [done|].
  intros done x rest s0 -> HI. apply Hstep; [|done].
  apply elem_of_app. right. apply elem_of_cons. by left.
Qed.

Lemma item_Ok {A} (l : list A) i a : item l i = Ok a ↔ l !! i = Some a.
Proof. unfold item. destruct (l !! i); naive_solver. Qed.

Lemma item_lt {A} (l : list A) i :
  (i < length l)%nat → ∃ a, item l i = Ok a.
Proof.
  intros [a Ha]%lookup_lt_is_Some_2. exists a. by apply item_Ok.
Qed.

Lemma index_of_range {A} (l : list A) (i : Z) :
  0 ≤ i < Z.of_nat (length l) → index_of l i = Ok (Z.to_nat i).
Proof. intros H. unfold index_of. by rewrite decide_True. Qed.

Lemma swap_Ok {A} (l : list A) i j :
  (i < length l)%nat → (j < length l)%nat → ∃ l', swap l i j = Ok l'.
Proof.
  intros [li Hi]%item_lt [lj Hj]%item_lt. unfold swap.
  rewrite Hj. simpl. rewrite Hi. simpl. eauto.
Qed.

Lemma swap_perm {A} (l l' : list A) i j : swap l i j = Ok l' → l' ≡ₚ l.
Proof.
  unfold swap. intros (lj & Hj & (li & Hi & [= <-])%bind_Ok)%bind_Ok.
  apply item_Ok in Hi, Hj. by apply Permutation_insert_swap.
Qed.


Lemma randrange_Ok start stop g :
  (start < stop)%nat →
  ∃ j g', randrange start stop g = Ok (j, g') ∧ (start ≤ j < stop)%nat.
Proof.
  intros H. unfold randrange, randbelow. rewrite decide_True by done.
  eexists _, _. split; [done|].
  pose proof (Nat.mod_upper_bound (g 0%nat) (stop - start)). lia.
Qed.

Lemma randrange_inv start stop g j g' :
  randrange start stop g = Ok (j, g') → (start ≤ j < stop)%nat.
Proof.
  unfold randrange, randbelow. case_decide; [|done]. intros [= <- _].
  pose proof (Nat.mod_upper_bound (g 0%nat) (stop - start)). lia.
Qed.

(** ** [cycle_shuffle] and [random.shuffle] return permutations *)

Lemma cycle_shuffle_perm {A} (l : list A) g :
  ∃ l' g', cycle_shuffle l g = Ok (l', g') ∧ l' ≡ₚ l.
Proof.
  unfold cycle_shuffle.
  destruct (for_preserves (λ s : list A * rng, s.1 ≡ₚ l) (seq 0 (length l - 1))
    (λ i '(l0, g0), '(j, g1) ← randrange (i + 1) (length l) g0;
                     l1 ← swap l0 i j; Ok (l1, g1)) (l, g))
    as ([l' g'] & Hrun & Hperm); [done| |by exists l', g'].
  intros i [l0 g0] [_ Hi]%elem_of_seq Hl0. simpl in *.
  destruct (randrange_Ok (i + 1) (length l) g0) as (j & g1 & Hj & Hjr); [lia|].
  rewrite Hj. simpl.
  destruct (swap_Ok l0 i j) as [l1 Hsw].
  { rewrite Hl0. lia. } { rewrite Hl0. lia. }
  rewrite Hsw. simpl. exists (l1, g1). split; [done|]. simpl.
  by rewrite (swap_perm _ _ _ _ Hsw).
Qed.

Lemma shuffle_perm {A} (x : list A) g :
  ∃ x' g', shuffle x g = Ok (x', g') ∧ x' ≡ₚ x.
Proof.
  unfold shuffle.
  destruct (for_preserves (λ s : list A * rng, s.1 ≡ₚ x)
    (reverse (seq 1 (length x - 1)))
    (λ i '(x0, g0), let '(j, g1) := randbelow (i + 1) g0 in
                     x1 ← swap x0 i j; Ok (x1, g1)) (x, g))
    as ([x' g'] & Hrun & Hperm); [done| |by exists x', g'].
  intros i [x0 g0] [Hlo Hi]%elem_of_reverse%elem_of_seq Hx0. simpl in *.
  pose proof (Nat.mod_upper_bound (g0 0%nat) (i + 1)).
  destruct (swap_Ok x0 i (g0 0%nat `mod` (i + 1))%nat) as [x1 Hsw].
  { rewrite Hx0. lia. } { rewrite Hx0. lia. }
  rewrite Hsw. simpl. eexists (x1, _). split; [done|]. simpl.
  by rewrite (swap_perm _ _ _ _ Hsw).
Qed.

Lemma seq_split_head (m : nat) (done rest : list nat) (x : nat) :
  seq 0 m = done ++ x :: rest → x = length done ∧ (x < m)%nat.
Proof.
  intros Hseq.
  assert (seq 0 m !! length done = Some x) as Hx.
  { rewrite Hseq. by rewrite list_lookup_middle. }
  apply lookup_seq in Hx. lia.
Qed.


(** ** The Hamiltonian path of [randgraph] *)

(** The first loop of [randgraph] returns, and it returns exactly the
    consecutive pairs of [line]; they are pairwise distinct when [line] has
    no repeated vertex. *)
Lemma path_edges_spec (line : list Z) :
  ∃ s, path_edges line = Ok s
     ∧ (∀ a b, (a, b) ∈ s ↔ ∃ i, line !! i = Some a ∧ line !! S i = Some b)
     ∧ (NoDup line → size s = (length line - 1)%nat).
Proof.
  unfold path_edges.
  destruct (for_invariant
    (λ done (s : gset edge),
       (∀ a b, (a, b) ∈ s ↔
          ∃ i, i ∈ done ∧ line !! i = Some a ∧ line !! S i = Some b)
       ∧ (NoDup line → size s = length done))
    (seq 0 (length line - 1))
    (λ i (edges : gset edge),
       a ← item line i; b ← item line (i + 1); Ok ({[ (a, b) ]} ∪ edges)) ∅)
    as (s & Hrun & Hmem & Hsize).
  - split; [|by rewrite size_empty].
    intros a b. split; [set_solver|]. by intros (i & ?%elem_of_nil & _).
  - intros done i rest s Hseq [Hmem Hsize].
    assert (i ∈ seq 0 (length line - 1)) as [_ Hi]%elem_of_seq.
    { rewrite Hseq. set_solver. }
    assert (i ∉ done) as Hfresh.
    { pose proof (NoDup_seq 0 (length line - 1)) as Hnd. rewrite Hseq in Hnd.
      apply NoDup_app in Hnd as (_ & Hnd & _). intros Hin.
      apply (Hnd i Hin). set_solver. }
    destruct (item_lt line i) as [a Ha]; [lia|].
    destruct (item_lt line (i + 1)) as [b Hb]; [lia|].
    rewrite Ha. simpl. rewrite Hb. simpl. eexists. split; [done|].
    apply item_Ok in Ha, Hb. replace (i + 1)%nat with (S i) in Hb by lia.
    split.
    + intros a' b'. rewrite elem_of_union, elem_of_singleton, Hmem. split.
      * intros [[= -> ->]|(k & Hk & ? & ?)].
        -- exists i. split; [set_solver|done].
        -- exists k. split; [set_solver|done].
      * intros (k & [Hk| ->%list_elem_of_singleton]%elem_of_app & Hka & Hkb).
        -- right. by exists k.
        -- left. congruence.
    + intros Hnd. rewrite length_app. simpl.
      rewrite size_union, size_singleton, Hsize by
        (try done; apply disjoint_singleton_l; intros (k & Hk & Hka & _)%Hmem;
         by rewrite (NoDup_lookup _ _ _ _ Hnd Hka Ha) in Hk).
      lia.
  - exists s. split; [done|]. split.
    + intros a b. rewrite Hmem. split.
      * intros (i & _ & ?). by exists i.
      * intros (i & Ha & Hb). exists i. split; [|done].
        apply elem_of_seq. apply lookup_lt_Some in Hb. lia.
    + intros Hnd. rewrite (Hsize Hnd). by rewrite length_seq.
Qed.

(** ** The candidate edges of [randgraph] *)

Lemma elem_of_all_edges (n a b : Z) :
  (a, b) ∈ all_edges n ↔ 0 ≤ a < n ∧ 0 ≤ b < n ∧ a ≠ b.
Proof.
  unfold all_edges. rewrite list_elem_of_bind. split.
  - intros (v1 & (v2 & Hin & Hv2)%list_elem_of_bind & Hv1).
    apply elem_of_seqZ in Hv1, Hv2. case_decide; [|by apply elem_of_nil in Hin].
    apply list_elem_of_singleton in Hin as [= -> ->]. lia.
  - intros (Ha & Hb & Hne). exists a. split; [|apply elem_of_seqZ; lia].
    apply list_elem_of_bind. exists b. split; [|apply elem_of_seqZ; lia].
    rewrite decide_True by done. by apply list_elem_of_singleton.
Qed.

Lemma NoDup_all_edges (n : Z) : NoDup (all_edges n).
Proof.
  unfold all_edges. apply NoDup_bind; [| |apply NoDup_seqZ].
  - intros x1 x2 [a b] _ _ (v & H1 & _)%list_elem_of_bind (w & H2 & _)%list_elem_of_bind.
    repeat case_decide; try (by apply elem_of_nil in H1); try (by apply elem_of_nil in H2).
    apply list_elem_of_singleton in H1, H2. congruence.
  - intros v1 _. apply NoDup_bind; [| |apply NoDup_seqZ].
    + intros x1 x2 [a b] _ _ H1 H2.
      repeat case_decide; try (by apply elem_of_nil in H1); try (by apply elem_of_nil in H2).
      apply list_elem_of_singleton in H1, H2. congruence.
    + intros v2 _. case_decide; [apply NoDup_singleton|apply NoDup_nil_2].
Qed.

Lemma length_bind_const {A B} (f : A → list B) (l : list A) (k : nat) :
  (∀ x, x ∈ l → length (f x) = k) → length (l ≫= f) = (length l * k)%nat.
Proof.
  induction l as [|x l IH]; intros Hf; csimpl; [done|].
  rewrite length_app, Hf, IH by set_solver. done.
Qed.

Lemma length_row_absent (v : Z) (l : list Z) :
  v ∉ l →
  length (l ≫= λ v2, if decide (v ≠ v2) then [(v, v2)] else []) = length l.
Proof.
  induction l as [|x l IH]; intros Hv; csimpl; [done|].
  apply not_elem_of_cons in Hv as [Hne Hv].
  rewrite decide_True by done. simpl. by rewrite IH.
Qed.

Lemma length_row_present (v : Z) (l : list Z) :
  NoDup l → v ∈ l →
  S (length (l ≫= λ v2, if decide (v ≠ v2) then [(v, v2)] else [])) = length l.
Proof.
  induction 1 as [|x l Hx Hnd IH]; intros Hv; csimpl.
  - by apply elem_of_nil in Hv.
  - destruct (decide (v = x)) as [->|Hne].
    + rewrite decide_False by (by intros ?). simpl.
      by rewrite length_row_absent.
    + rewrite decide_True by done. simpl. rewrite IH; [done|set_solver].
Qed.

(** The [assert] on the number of candidate edges holds for a vertex count
    that is not negative. *)
Lemma length_all_edges (n : Z) :
  0 ≤ n → Z.of_nat (length (all_edges n)) = n * (n - 1).
Proof.
  intros Hn. unfold all_edges.
  rewrite (length_bind_const _ _ (Z.to_nat n - 1)).
  - rewrite length_seqZ. nia.
  - intros v Hv.
    pose proof (length_row_present v (seqZ 0 n) (NoDup_seqZ _ _) Hv) as Hlen.
    rewrite length_seqZ in Hlen. lia.
Qed.

(** For a negative vertex count there is no candidate edge at all. *)
Lemma all_edges_negative (n : Z) : n < 0 → all_edges n = [].
Proof.
  intros Hn. unfold all_edges, seqZ. by replace (Z.to_nat n) with 0%nat by lia.
Qed.

(** ** The extra edges of [randgraph] *)

Lemma extra_edges_subseteq (all : list edge) (edges : gset edge) (k : Z) :
  edges ⊆ extra_edges all edges k.
Proof.
  revert edges k. induction all as [|e rest IH]; intros edges k; simpl; [done|].
  repeat case_decide; [set_solver| |apply IH].
  etrans; [|apply IH]. set_solver.
Qed.

Lemma extra_edges_elem (all : list edge) (edges : gset edge) (k : Z) e :
  e ∈ extra_edges all edges k → e ∈ edges ∨ e ∈ all.
Proof.
  revert edges k. induction all as [|e' rest IH]; intros edges k; simpl; [by left|].
  repeat case_decide.
  - set_solver.
  - intros [?%elem_of_union|?]%IH; set_solver.
  - intros [?|?]%IH; set_solver.
Qed.

Lemma filter_ext_elem {A} (P Q : A → Prop) `{∀ x, Decision (P x)}
    `{∀ x, Decision (Q x)} (l : list A) :
  (∀ x, x ∈ l → P x ↔ Q x) → filter P l = filter Q l.
Proof.
  induction l as [|x l IH]; intros Hext; [done|].
  rewrite !filter_cons, IH by set_solver.
  destruct (decide (P x)) as [HP|HP], (decide (Q x)) as [HQ|HQ]; try done;
    exfalso; apply (Hext x) in HP || apply (Hext x) in HQ; done || set_solver.
Qed.

(** The loop adds exactly [k] edges when at least [k] of the candidates are
    not yet present. *)
Lemma extra_edges_size (all : list edge) (edges : gset edge) (k : Z) :
  NoDup all → 0 < k →
  k ≤ Z.of_nat (length (filter (λ e, e ∉ edges) all)) →
  Z.of_nat (size (extra_edges all edges k)) = Z.of_nat (size edges) + k.
Proof.
  intros Hnd. revert edges k.
  induction Hnd as [|e rest He Hnd IH]; intros edges k Hk Hlen; simpl in *.
  - lia.
  - rewrite filter_cons in Hlen. case_decide as Hin; simpl in Hlen.
    + assert (size ({[e]} ∪ edges) = S (size edges)) as Hsz.
      { rewrite size_union, size_singleton by set_solver. done. }
      case_decide; [lia|].
      rewrite IH, Hsz; [lia|lia|].
      rewrite (filter_ext_elem _ (λ x, x ∉ edges)); [lia|].
      intros x Hx. set_solver.
    + by apply IH.
Qed.

Lemma length_filter_absent (l : list edge) (s : gset edge) :
  NoDup l → s ⊆ list_to_set l →
  length (filter (λ e, e ∉ s) l) = (length l - size s)%nat.
Proof.
  intros Hnd Hsub.
  rewrite <- (size_list_to_set (C:=gset edge) l Hnd).
  rewrite <- size_difference by done.
  rewrite <- (size_list_to_set (C:=gset edge)) by by apply NoDup_filter.
  f_equal. apply set_eq. intros e.
  rewrite elem_of_list_to_set, list_elem_of_filter. set_solver.
Qed.

(** ** The conversions between the two representations *)

Lemma getitem_range {A} (l : list A) (i : Z) :
  0 ≤ i < Z.of_nat (length l) →
  ∃ a, getitem l i = Ok a ∧ l !! Z.to_nat i = Some a.
Proof.
  intros Hi. unfold getitem. rewrite index_of_range by done. simpl.
  destruct (item_lt l (Z.to_nat i)) as [a Ha]; [lia|].
  exists a. split; [done|]. by apply item_Ok.
Qed.

(** The symmetric closure that [GraphEL.__init__] accumulates. *)
Lemma elem_of_closure (es : list edge) (s0 : gset edge) (a b : Z) :
  (a, b) ∈ foldl (λ (s : gset edge) '(v1, v2), {[ (v2, v1) ]} ∪ ({[ (v1, v2) ]} ∪ s))
                 s0 es
  ↔ (a, b) ∈ s0 ∨ (a, b) ∈ es ∨ (b, a) ∈ es.
Proof.
  revert s0. induction es as [|[v1 v2] es IH]; intros s0; simpl.
  - set_solver.
  - rewrite IH, !elem_of_union, !elem_of_singleton, !elem_of_cons. naive_solver.
Qed.

(** The directed branch of [GraphAL.__init__]: when every source vertex is in
    range the loop returns, and [neighbors[a]] lists the targets of [a]. *)
Lemma neighbors_directed (n : Z) (es : list edge) :
  (∀ a b, (a, b) ∈ es → 0 ≤ a < n) →
  ∃ nbs, for_ es
           (λ '(v1, v2) (neighbors : list (list Z)),
              k ← index_of neighbors v1;
              Ok (alter (λ nb, nb ++ [v2]) k neighbors))
           (replicate (Z.to_nat n) []) = Ok nbs
       ∧ length nbs = Z.to_nat n
       ∧ ∀ (i : nat) nb b, nbs !! i = Some nb → b ∈ nb ↔ (Z.of_nat i, b) ∈ es.
Proof.
  intros Hes.
  apply (for_invariant (λ done (nbs : list (list Z)),
           length nbs = Z.to_nat n
           ∧ ∀ (i : nat) nb b, nbs !! i = Some nb → b ∈ nb ↔ (Z.of_nat i, b) ∈ done)).
  - split; [by rewrite length_replicate|].
    intros i nb b [-> _]%lookup_replicate. set_solver.
  - intros done [v1 v2] rest nbs -> [Hlen Hnbs].
    assert (0 ≤ v1 < n) as Hv1 by (apply (Hes v1 v2); set_solver).
    rewrite index_of_range by lia. simpl. eexists. split; [done|].
    split; [by rewrite length_alter|].
    intros i nb b. rewrite list_lookup_alter. case_decide as Hi.
    + subst i. destruct (nbs !! Z.to_nat v1) as [nb0|] eqn:Hnb0; [|done].
      intros [= <-].
      rewrite !elem_of_app, !list_elem_of_singleton, (Hnbs _ nb0 b Hnb0).
      rewrite Z2Nat.id by lia. naive_solver.
    + intros Hnb. rewrite (Hnbs i nb b Hnb), elem_of_app, list_elem_of_singleton.
      split; [by left|]. intros [?|[= ? ->]]; [done|lia].
Qed.

(** The undirected branch, first loop: the per-vertex neighbour sets. *)
Lemma neighbors_undirected (n : Z) (es : list edge) :
  in_range n es →
  ∃ nbs, for_ es
           (λ '(v1, v2) (neighbors : list (gset Z)),
              k1 ← index_of neighbors v1;
              k2 ← index_of (alter (λ nb, {[ v2 ]} ∪ nb) k1 neighbors) v2;
              Ok (alter (λ nb, {[ v1 ]} ∪ nb) k2
                    (alter (λ nb, {[ v2 ]} ∪ nb) k1 neighbors)))
           (replicate (Z.to_nat n) ∅) = Ok nbs
       ∧ length nbs = Z.to_nat n
       ∧ ∀ (i : nat) nb b, nbs !! i = Some nb →
           b ∈ nb ↔ (Z.of_nat i, b) ∈ es ∨ (b, Z.of_nat i) ∈ es.
Proof.
  intros Hes.
  apply (for_invariant (λ done (nbs : list (gset Z)),
           length nbs = Z.to_nat n
           ∧ ∀ (i : nat) nb b, nbs !! i = Some nb →
               b ∈ nb ↔ (Z.of_nat i, b) ∈ done ∨ (b, Z.of_nat i) ∈ done)).
  - split; [by rewrite length_replicate|].
    intros i nb b [-> _]%lookup_replicate. set_solver.
  - intros done [v1 v2] rest nbs -> [Hlen Hnbs].
    assert (0 ≤ v1 < n ∧ 0 ≤ v2 < n) as [Hv1 Hv2] by (apply Hes; set_solver).
    rewrite index_of_range by lia. simpl.
    rewrite index_of_range by (rewrite length_alter; lia). simpl.
    eexists. split; [done|]. split; [by rewrite !length_alter|].
    assert (∃ k1 : nat, v1 = Z.of_nat k1) as [k1 ->] by (exists (Z.to_nat v1); lia).
    assert (∃ k2 : nat, v2 = Z.of_nat k2) as [k2 ->] by (exists (Z.to_nat v2); lia).
    rewrite !Nat2Z.id. clear Hes Hv1 Hv2.
    intros i nb b. rewrite !list_lookup_alter.
    destruct (nbs !! i) as [nb0|] eqn:Hnb0;
      [|by repeat case_decide; subst; rewrite ?Hnb0].
    specialize (Hnbs i nb0 b Hnb0).
    repeat case_decide; subst; rewrite ?Hnb0; simpl; intros [= <-];
      rewrite ?elem_of_union, ?elem_of_singleton, Hnbs, !elem_of_app,
        !list_elem_of_singleton;
      split; intros; destruct_or?; simplify_eq; auto.
Qed.

(** The loop of [GraphAL.toGraphEL]: with one neighbour list per vertex it
    returns, and it emits [(a, b)] exactly for [b] in [neighbors[a]]. *)
Lemma toGraphEL_edges (n : Z) (nbs : list (list Z)) :
  length nbs = Z.to_nat n →
  ∃ es, for_ (seqZ 0 n)
          (λ v1 (edges : list edge),
             nb ← getitem nbs v1;
             Ok (edges ++ ((λ v2, (v1, v2)) <$> nb)))
          [] = Ok es
      ∧ ∀ a b, (a, b) ∈ es ↔
          0 ≤ a < n ∧ ∃ nb, nbs !! Z.to_nat a = Some nb ∧ b ∈ nb.
Proof.
  intros Hlen.
  destruct (for_invariant (λ done (es : list edge),
      ∀ a b, (a, b) ∈ es ↔
        a ∈ done ∧ ∃ nb, nbs !! Z.to_nat a = Some nb ∧ b ∈ nb)
    (seqZ 0 n)
    (λ v1 (edges : list edge),
       nb ← getitem nbs v1; Ok (edges ++ ((λ v2, (v1, v2)) <$> nb))) [])
    as (es & Hrun & Hes).
  - intros a b. split; [by intros ?%elem_of_nil|by intros [?%elem_of_nil _]].
  - intros done v rest es Hseq Hes.
    assert (v ∈ seqZ 0 n) as Hv%elem_of_seqZ by (rewrite Hseq; set_solver).
    destruct (getitem_range nbs v) as (nb & Hget & Hnb); [lia|].
    rewrite Hget. simpl. eexists. split; [done|].
    intros a b. rewrite !elem_of_app, Hes, list_elem_of_fmap, list_elem_of_singleton.
    split.
    + intros [[? ?]|(v2 & [= -> ->] & ?)]; [by auto|].
      split; [by right|by exists nb].
    + intros [[?| ->] (nb' & Hnb' & Hb)]; [left; split; [done|by exists nb']|].
      right. exists b. split; [done|congruence].
  - exists es. split; [done|]. intros a b. rewrite Hes, elem_of_seqZ.
    split; intros [? ?]; (split; [lia|done]).
Qed.

Lemma seqZ_split_head (n : Z) (done rest : list Z) (v : Z) :
  seqZ 0 n = done ++ v :: rest → v = Z.of_nat (length done).
Proof.
  intros Hseq.
  assert (seqZ 0 n !! length done = Some v) as Hv.
  { rewrite Hseq. by rewrite list_lookup_middle. }
  apply lookup_seqZ in Hv. lia.
Qed.

(** ** Subscripts *)

Lemma index_of_wrap {A} (l : list A) (i : Z) :
  subscript_ok (Z.of_nat (length l)) i →
  index_of l i = Ok (Z.to_nat (wrap (Z.of_nat (length l)) i))
  ∧ 0 ≤ wrap (Z.of_nat (length l)) i < Z.of_nat (length l).
Proof.
  unfold subscript_ok, index_of, wrap. intros Hi.
  repeat case_decide; try lia; split; (done || lia).
Qed.

Lemma index_of_IndexError {A} (l : list A) (i : Z) :
  ¬ subscript_ok (Z.of_nat (length l)) i → index_of l i = Raise IndexError.
Proof.
  unfold subscript_ok, index_of. intros Hi. repeat case_decide; (done || lia).
Qed.

Lemma wrap_in_range (n v : Z) : 0 ≤ v < n → wrap n v = v.
Proof. unfold wrap. intros Hv. case_decide; [lia|done]. Qed.

(** ** The edges of an adjacency list *)

Lemma edge_rows_from_app (v : Z) (l1 l2 : list (list Z)) :
  edge_rows_from v (l1 ++ l2)
  = edge_rows_from v l1 ++ edge_rows_from (v + Z.of_nat (length l1)) l2.
Proof.
  revert v. induction l1 as [|nb l1 IH]; intros v; simpl.
  - by rewrite Z.add_0_r.
  - rewrite IH, <- app_assoc. do 3 f_equal. lia.
Qed.

Lemma edge_rows_from_replicate (v : Z) (k : nat) :
  edge_rows_from v (replicate k []) = [].
Proof. revert v. induction k as [|k IH]; intros v; simpl; [done|apply IH]. Qed.

Lemma elem_of_edge_rows_from (v : Z) (nbs : list (list Z)) (a b : Z) :
  (a, b) ∈ edge_rows_from v nbs
  ↔ ∃ (i : nat) nb, a = v + Z.of_nat i ∧ nbs !! i = Some nb ∧ b ∈ nb.
Proof.
  revert v. induction nbs as [|nb0 nbs IH]; intros v; simpl.
  - split; [by intros ?%elem_of_nil|]. by intros (i & nb & _ & ? & _).
  - rewrite elem_of_app, list_elem_of_fmap, IH. split.
    + intros [(b' & [= -> ->] & Hb)|(i & nb & -> & Hnb & Hb)].
      * exists 0%nat, nb0. split; [lia|done].
      * exists (S i), nb. split; [lia|done].
    + intros ([|i] & nb & -> & Hnb & Hb); simpl in Hnb.
      * left. injection Hnb as ->. exists b. split; [f_equal; lia|done].
      * right. exists i, nb. split; [lia|done].
Qed.

(** Appending [b] to the list of vertex [k] adds the one edge [(k, b)]. *)
Lemma edge_rows_from_alter (v : Z) (nbs : list (list Z)) (k : nat) (b : Z) :
  (k < length nbs)%nat →
  edge_rows_from v (alter (λ nb, nb ++ [b]) k nbs)
  ≡ₚ (v + Z.of_nat k, b) :: edge_rows_from v nbs.
Proof.
  revert v k. induction nbs as [|nb nbs IH]; intros v k Hk; simpl in *; [lia|].
  destruct k as [|k]; simpl.
  - rewrite fmap_app. simpl. rewrite Z.add_0_r, <- app_assoc. simpl.
    by rewrite <- Permutation_middle.
  - etrans; [apply Permutation_app_head, (IH (v + 1) k); lia|].
    rewrite <- Permutation_middle.
    by replace (v + Z.of_nat (S k)) with (v + 1 + Z.of_nat k) by lia.
Qed.

Lemma targets_app (v : Z) (l1 l2 : list edge) :
  targets v (l1 ++ l2) = targets v l1 ++ targets v l2.
Proof. apply omap_app. Qed.

Lemma targets_row_same (v : Z) (nb : list Z) :
  targets v ((λ v2, (v, v2)) <$> nb) = nb.
Proof.
  unfold targets. induction nb as [|b nb IH]; simpl; [done|].
  rewrite decide_True by done. simpl. by f_equal.
Qed.

Lemma targets_row_other (v w : Z) (nb : list Z) :
  w ≠ v → targets v ((λ v2, (w, v2)) <$> nb) = [].
Proof.
  intros Hne. unfold targets. induction nb as [|b nb IH]; simpl; [done|].
  by rewrite decide_False.
Qed.

Lemma targets_edge_rows_below (v w : Z) (nbs : list (list Z)) :
  v < w → targets v (edge_rows_from w nbs) = [].
Proof.
  revert w. induction nbs as [|nb nbs IH]; intros w Hw; simpl; [done|].
  rewrite targets_app, targets_row_other, IH by lia. done.
Qed.

(** Reading the edges of vertex [v + i] back out of the rows gives the
    [i]-th neighbour list. *)
Lemma targets_edge_rows_from (v : Z) (nbs : list (list Z)) (i : nat) nb :
  nbs !! i = Some nb → targets (v + Z.of_nat i) (edge_rows_from v nbs) = nb.
Proof.
  revert v i. induction nbs as [|nb0 nbs IH]; intros v i Hi; [done|].
  simpl. rewrite targets_app. destruct i as [|i]; simpl in Hi.
  - injection Hi as ->. rewrite Z.add_0_r, targets_row_same.
    rewrite targets_edge_rows_below by lia. apply app_nil_r.
  - rewrite targets_row_other by lia. simpl.
    replace (v + Z.of_nat (S i)) with ((v + 1) + Z.of_nat i) by lia. by apply IH.
Qed.

(** The loop of [GraphAL.toGraphEL], exactly: the rows of the lists. *)
Lemma toGraphEL_rows (n : Z) (nbs : list (list Z)) :
  length nbs = Z.to_nat n →
  for_ (seqZ 0 n)
    (λ v1 (edges : list edge),
       nb ← getitem nbs v1;
       Ok (edges ++ ((λ v2, (v1, v2)) <$> nb)))
    [] = Ok (edge_rows nbs).
Proof.
  intros Hlen.
  destruct (for_invariant (λ done (es : list edge),
      es = edge_rows (take (length done) nbs))
    (seqZ 0 n)
    (λ v1 (edges : list edge),
       nb ← getitem nbs v1; Ok (edges ++ ((λ v2, (v1, v2)) <$> nb))) [])
    as (es & Hrun & Hes).
  - done.
  - intros done v rest es Hseq ->.
    assert (v ∈ seqZ 0 n) as Hv%elem_of_seqZ by (rewrite Hseq; set_solver).
    destruct (getitem_range nbs v) as (nb & Hget & Hnb); [lia|].
    rewrite Hget. simpl. eexists. split; [done|].
    apply seqZ_split_head in Hseq. subst v. rewrite Nat2Z.id in Hnb.
    rewrite length_app. simpl.
    replace (length done + 1)%nat with (S (length done)) by lia.
    rewrite (take_S_r _ _ _ Hnb). unfold edge_rows.
    rewrite edge_rows_from_app. simpl. rewrite app_nil_r.
    rewrite length_take_le by (apply lookup_lt_Some in Hnb; lia). done.
  - rewrite Hrun, Hes. rewrite take_ge; [done|]. rewrite length_seqZ. lia.
Qed.

(** ** The loops of [GraphAL.__init__], for arbitrary subscripts *)

(** Directed loop, every source an accepted subscript: the loop returns, and
    the lists then stand for the edges given, each negative source counted
    from the end, in some order. *)
Lemma directed_loop_wrap (es : list edge) (nbs : list (list Z)) :
  Forall (λ e, subscript_ok (Z.of_nat (length nbs)) e.1) es →
  ∃ nbs', for_ es
            (λ '(v1, v2) (neighbors : list (list Z)),
               k ← index_of neighbors v1;
               Ok (alter (λ nb, nb ++ [v2]) k neighbors))
            nbs = Ok nbs'
        ∧ length nbs' = length nbs
        ∧ edge_rows nbs'
          ≡ₚ edge_rows nbs
             ++ ((λ e, (wrap (Z.of_nat (length nbs)) e.1, e.2)) <$> es).
Proof.
  revert nbs. induction es as [|[a b] es IH]; intros nbs Hes; simpl.
  - exists nbs. by rewrite app_nil_r.
  - apply Forall_cons in Hes as [Ha Hes]. simpl in Ha.
    destruct (index_of_wrap nbs a Ha) as [-> Hk]. simpl.
    set (k := Z.to_nat (wrap (Z.of_nat (length nbs)) a)) in *.
    destruct (IH (alter (λ nb, nb ++ [b]) k nbs)) as (nbs' & -> & Hlen & Hrows).
    { by rewrite length_alter. }
    exists nbs'. rewrite length_alter in Hlen, Hrows. split_and!; [done..|].
    rewrite Hrows. unfold edge_rows. rewrite edge_rows_from_alter by (unfold k; lia).
    rewrite <- Permutation_middle. simpl.
    by replace (0 + Z.of_nat k) with (wrap (Z.of_nat (length nbs)) a)
      by (unfold k; lia).
Qed.

(** Directed loop, some source not an accepted subscript: [IndexError]. *)
Lemma directed_loop_IndexError (es : list edge) (nbs : list (list Z)) :
  Exists (λ e, ¬ subscript_ok (Z.of_nat (length nbs)) e.1) es →
  for_ es
    (λ '(v1, v2) (neighbors : list (list Z)),
       k ← index_of neighbors v1;
       Ok (alter (λ nb, nb ++ [v2]) k neighbors))
    nbs = Raise IndexError.
Proof.
  revert nbs. induction es as [|[a b] es IH]; intros nbs Hes; simpl.
  - by apply Exists_nil in Hes.
  - destruct (decide (subscript_ok (Z.of_nat (length nbs)) a)) as [Ha|Ha].
    + destruct (index_of_wrap nbs a Ha) as [-> _]. simpl.
      apply Exists_cons in Hes as [?|Hes]; [done|].
      apply IH. by rewrite length_alter.
    + by rewrite (index_of_IndexError nbs a Ha).
Qed.

(** Directed loop, every source a vertex id: each list grows by the targets
    of its vertex, in edge order. *)
Lemma directed_loop_targets (es : list edge) (nbs : list (list Z)) :
  Forall (λ e, 0 ≤ e.1 < Z.of_nat (length nbs)) es →
  for_ es
    (λ '(v1, v2) (neighbors : list (list Z)),
       k ← index_of neighbors v1;
       Ok (alter (λ nb, nb ++ [v2]) k neighbors))
    nbs = Ok (imap (λ i nb, nb ++ targets (Z.of_nat i) es) nbs).
Proof.
  revert nbs. induction es as [|[a b] es IH]; intros nbs Hes; simpl.
  - f_equal. apply list_eq. intros i. rewrite list_lookup_imap.
    destruct (nbs !! i); simpl; [|done]. by rewrite app_nil_r.
  - apply Forall_cons in Hes as [Ha Hes]. simpl in Ha.
    rewrite index_of_range by done. simpl.
    rewrite IH by by rewrite length_alter. f_equal.
    apply list_eq. intros i.
    rewrite !list_lookup_imap, list_lookup_alter.
    unfold targets at 2. simpl. fold (targets (Z.of_nat i) es).
    case_decide as Hi.
    + subst i. rewrite Z2Nat.id, decide_True by lia.
      destruct (nbs !! Z.to_nat a); simpl; [|done]. by rewrite <- app_assoc.
    + rewrite decide_False by lia. done.
Qed.

(** Undirected loop: it returns when both endpoints of every edge are
    accepted subscripts, and raises [IndexError] otherwise. *)
Lemma undirected_loop_Ok (es : list edge) (nbs : list (gset Z)) :
  Forall (λ e, subscript_ok (Z.of_nat (length nbs)) e.1
               ∧ subscript_ok (Z.of_nat (length nbs)) e.2) es →
  ∃ nbs', for_ es
            (λ '(v1, v2) (neighbors : list (gset Z)),
               k1 ← index_of neighbors v1;
               k2 ← index_of (alter (λ nb, {[ v2 ]} ∪ nb) k1 neighbors) v2;
               Ok (alter (λ nb, {[ v1 ]} ∪ nb) k2
                     (alter (λ nb, {[ v2 ]} ∪ nb) k1 neighbors)))
            nbs = Ok nbs'
        ∧ length nbs' = length nbs.
Proof.
  revert nbs. induction es as [|[a b] es IH]; intros nbs Hes; simpl.
  - by exists nbs.
  - apply Forall_cons in Hes as [[Ha Hb] Hes]. simpl in Ha, Hb.
    destruct (index_of_wrap nbs a Ha) as [-> _]. simpl.
    set (nbs1 := alter _ _ nbs).
    assert (length nbs1 = length nbs) as Hlen1 by apply length_alter.
    destruct (index_of_wrap nbs1 b) as [-> _]; [by rewrite Hlen1|]. simpl.
    set (nbs2 := alter _ _ nbs1).
    assert (length nbs2 = length nbs) as Hlen2
      by (unfold nbs2; by rewrite length_alter).
    destruct (IH nbs2) as (nbs' & -> & Hlen); [by rewrite Hlen2|].
    exists nbs'. split; [done|congruence].
Qed.

Lemma undirected_loop_IndexError (es : list edge) (nbs : list (gset Z)) :
  Exists (λ e, ¬ (subscript_ok (Z.of_nat (length nbs)) e.1
                  ∧ subscript_ok (Z.of_nat (length nbs)) e.2)) es →
  for_ es
    (λ '(v1, v2) (neighbors : list (gset Z)),
       k1 ← index_of neighbors v1;
       k2 ← index_of (alter (λ nb, {[ v2 ]} ∪ nb) k1 neighbors) v2;
       Ok (alter (λ nb, {[ v1 ]} ∪ nb) k2
             (alter (λ nb, {[ v2 ]} ∪ nb) k1 neighbors)))
    nbs = Raise IndexError.
Proof.
  revert nbs. induction es as [|[a b] es IH]; intros nbs Hes; simpl.
  - by apply Exists_nil in Hes.
  - destruct (decide (subscript_ok (Z.of_nat (length nbs)) a)) as [Ha|Ha];
      [|by rewrite (index_of_IndexError nbs a Ha)].
    destruct (index_of_wrap nbs a Ha) as [-> _]. simpl.
    set (nbs1 := alter _ _ nbs).
    assert (length nbs1 = length nbs) as Hlen1 by apply length_alter.
    destruct (decide (subscript_ok (Z.of_nat (length nbs)) b)) as [Hb|Hb];
      [|by rewrite (index_of_IndexError nbs1 b) by by rewrite Hlen1].
    destruct (index_of_wrap nbs1 b) as [-> _]; [by rewrite Hlen1|]. simpl.
    apply Exists_cons in Hes as [Hbad|Hes]; [by destruct Hbad|].
    apply IH. by rewrite length_alter, Hlen1.
Qed.

(** ** Properties of the graph classes and of [randgraph] *)

Section Properties.

Context (list_of_set : ∀ (A : Type) `{Countable A}, gset A → list A).
Local Abbreviation list_ s := (list_of_set _ _ _ s).

(** [list(s)] enumerates the elements of [s], each one once, in whatever
    order the run-time chooses. *)
Hypothesis list_of_set_perm :
  ∀ (A : Type) `{Countable A} (s : gset A), list_of_set A _ _ s ≡ₚ elements s.

Lemma elem_of_list_of_set `{Countable A} (s : gset A) (x : A) :
  x ∈ list_ s ↔ x ∈ s.
Proof. by rewrite list_of_set_perm, elem_of_elements. Qed.

Lemma NoDup_list_of_set `{Countable A} (s : gset A) : NoDup (list_ s).
Proof. rewrite list_of_set_perm. apply NoDup_elements. Qed.

Lemma length_list_of_set `{Countable A} (s : gset A) :
  length (list_ s) = size s.
Proof. by rewrite list_of_set_perm. Qed.

Lemma list_to_set_list_of_set `{Countable A} (s : gset A) :
  list_to_set (list_ s) = s.
Proof.
  apply set_eq. intros x. by rewrite elem_of_list_to_set, elem_of_list_of_set.
Qed.

(** The edges a [GraphEL] holds after construction. *)
Lemma GraphEL_init_directed (n : Z) (es : list edge) :
  GraphEL_init list_of_set n es true = EL.mk n es true.
Proof. done. Qed.

Lemma GraphEL_init_undirected (n : Z) (es : list edge) :
  ∃ l, GraphEL_init list_of_set n es false = EL.mk n l false
     ∧ NoDup l
     ∧ ∀ a b, (a, b) ∈ l ↔ (a, b) ∈ es ∨ (b, a) ∈ es.
Proof.
  eexists. split; [done|]. split; [apply NoDup_list_of_set|].
  intros a b. rewrite elem_of_list_of_set, elem_of_closure. set_solver.
Qed.

(** The undirected branch of [GraphAL.__init__], second loop: every
    neighbour set is turned into a list. *)
Lemma neighbor_lists (n : Z) (sets : list (gset Z)) :
  length sets = Z.to_nat n →
  for_ (seqZ 0 n)
    (λ v (lists : list (list Z)),
       nb ← getitem sets v; Ok (lists ++ [list_ nb]))
    [] = Ok ((λ s, list_ s) <$> sets).
Proof.
  clear list_of_set_perm.
  intros Hlen.
  destruct (for_invariant (λ done (lists : list (list Z)),
      lists = (λ s, list_ s) <$> take (length done) sets)
    (seqZ 0 n)
    (λ v (lists : list (list Z)),
       nb ← getitem sets v; Ok (lists ++ [list_ nb])) [])
    as (lists & Hrun & Hlists).
  - done.
  - intros done v rest lists Hseq ->.
    assert (v ∈ seqZ 0 n) as Hv%elem_of_seqZ by (rewrite Hseq; set_solver).
    destruct (getitem_range sets v) as (nb & Hget & Hnb); [lia|].
    rewrite Hget. simpl. eexists. split; [done|].
    apply seqZ_split_head in Hseq. subst v. rewrite Nat2Z.id in Hnb.
    rewrite length_app. simpl. replace (length done + 1)%nat with (S (length done)) by lia.
    by rewrite (take_S_r _ _ _ Hnb), fmap_app.
  - rewrite Hrun, Hlists. rewrite take_ge; [done|]. rewrite length_seqZ. lia.
Qed.


(** *** The round trip through the adjacency list *)

Lemma toGraphAL_toGraphEL_directed (n : Z) (es : list edge) :
  (∀ a b, (a, b) ∈ es → 0 ≤ a < n) →
  ∃ g_al es', toGraphAL list_of_set (EL.mk n es true) = Ok g_al
            ∧ toGraphEL list_of_set g_al = Ok (EL.mk n es' true)
            ∧ ∀ a b, (a, b) ∈ es' ↔ (a, b) ∈ es.
Proof.
  intros Hes. unfold toGraphAL, GraphAL_init, toGraphEL. simpl.
  destruct (neighbors_directed n es Hes) as (nbs & -> & Hlen & Hnbs). simpl.
  destruct (toGraphEL_edges n nbs Hlen) as (es' & Hrun & Hes').
  eexists _, es'. split; [done|]. simpl. rewrite Hrun. split; [done|].
  intros a b. rewrite Hes'. split.
  - intros (Ha & nb & Hnb & Hb). apply (Hnbs _ _ _ Hnb) in Hb.
    by rewrite Z2Nat.id in Hb by lia.
  - intros Hab. pose proof (Hes _ _ Hab) as Ha. split; [done|].
    destruct (lookup_lt_is_Some_2 nbs (Z.to_nat a)) as [nb Hnb]; [lia|].
    exists nb. split; [done|]. apply (Hnbs _ _ _ Hnb).
    by rewrite Z2Nat.id by lia.
Qed.

Lemma toGraphAL_toGraphEL_undirected (n : Z) (es : list edge) :
  in_range n es →
  ∃ g_al es', toGraphAL list_of_set (EL.mk n es false) = Ok g_al
            ∧ toGraphEL list_of_set g_al
              = Ok (GraphEL_init list_of_set n es' false)
            ∧ ∀ a b, (a, b) ∈ es' ↔ (a, b) ∈ es ∨ (b, a) ∈ es.
Proof.
  intros Hes. unfold toGraphAL, GraphAL_init, toGraphEL.
  destruct (neighbors_undirected n es Hes) as (sets & Hsets_run & Hlen & Hsets).
  destruct (toGraphEL_edges n ((λ s, list_ s) <$> sets)) as (es' & Hrun & Hes').
  { by rewrite length_fmap. }
  eexists _, es'. split.
  { simpl. rewrite Hsets_run. simpl. by rewrite (neighbor_lists n sets Hlen). }
  simpl. rewrite Hrun. split; [done|].
  intros a b. rewrite Hes'. split.
  - intros (Ha & nb & Hnb & Hb).
    apply list_lookup_fmap_Some in Hnb as (s & -> & Hs).
    apply elem_of_list_of_set, (Hsets _ _ _ Hs) in Hb.
    by rewrite Z2Nat.id in Hb by lia.
  - intros Hab.
    assert (0 ≤ a < n) as Ha by (destruct Hab as [H|H]; apply Hes in H; lia).
    split; [done|].
    destruct (lookup_lt_is_Some_2 sets (Z.to_nat a)) as [s Hs]; [lia|].
    exists (list_ s). split; [by rewrite list_lookup_fmap, Hs|].
    apply elem_of_list_of_set, (Hsets _ _ _ Hs).
    by rewrite Z2Nat.id by lia.
Qed.

(** A well-formed edge-list graph survives the round trip: both conversions
    return, and the graph that comes back compares equal to the original,
    whichever side of [==] it stands on. *)
Lemma roundtrip_well_formed (g : GraphEL) :
  well_formed g →
  ∃ g_al g', toGraphAL list_of_set g = Ok g_al
           ∧ toGraphEL list_of_set g_al = Ok g'
           ∧ GraphEL_eq list_of_set g' (OfEL g) = Ok (PyBool true)
           ∧ GraphEL_eq list_of_set g (OfEL g') = Ok (PyBool true).
Proof.
  destruct g as [n es [|]]; intros [Hrange Hsym]; simpl in *.
  - destruct (toGraphAL_toGraphEL_directed n es) as (g_al & es' & H1 & H2 & Hes').
    { intros a b Hab. apply (Hrange a b Hab). }
    exists g_al, (EL.mk n es' true). split; [done|]. split; [done|].
    assert (list_to_set es' =@{gset edge} list_to_set es) as Heq.
    { apply set_eq. intros [a b]. by rewrite !elem_of_list_to_set. }
    unfold GraphEL_eq. simpl. by rewrite !bool_decide_eq_true_2.
  - destruct (toGraphAL_toGraphEL_undirected n es Hrange)
      as (g_al & es' & H1 & H2 & Hes').
    destruct (GraphEL_init_undirected n es') as (l & Hl & _ & Hmem).
    exists g_al, (EL.mk n l false). split; [done|]. split; [congruence|].
    assert (list_to_set l =@{gset edge} list_to_set es) as Heq.
    { apply set_eq. intros [a b]. rewrite !elem_of_list_to_set, Hmem, !Hes'.
      specialize (Hsym eq_refl). naive_solver. }
    unfold GraphEL_eq. simpl. by rewrite !bool_decide_eq_true_2.
Qed.

Lemma roundtrip_Ok (g : GraphEL) :
  well_formed g → roundtrip list_of_set g = Ok ().
Proof.
  intros (g_al & g' & H1 & H2 & _ & H3)%roundtrip_well_formed.
  unfold roundtrip. rewrite H1. simpl. rewrite H2. simpl. by rewrite H3.
Qed.

(** Construction with [directed=False] establishes the invariant when the
    given edges are in range. *)
Lemma well_formed_undirected (n : Z) (es : list edge) :
  in_range n es → well_formed (GraphEL_init list_of_set n es false).
Proof.
  intros Hes. destruct (GraphEL_init_undirected n es) as (l & -> & _ & Hl).
  split; simpl.
  - intros a b [H|H]%Hl; apply Hes in H; lia.
  - intros _ a b. rewrite !Hl. tauto.
Qed.


(** *** [randgraph] *)

(** The run of [randgraph] on a vertex count that is not negative and an
    [nedges] within the bound: both [assert]s pass, both shuffles return,
    and the result holds the path edges plus the extra edges. *)
Lemma randgraph_run (n k : Z) (g : rng) :
  0 ≤ n → k ≤ n * (n - 1) - (n - 1) →
  ∃ line g1 path all g2,
    cycle_shuffle (seqZ 0 n) g = Ok (line, g1) ∧ line ≡ₚ seqZ 0 n
    ∧ path_edges line = Ok path
    ∧ (∀ a b, (a, b) ∈ path ↔ ∃ i, line !! i = Some a ∧ line !! S i = Some b)
    ∧ size path = (length line - 1)%nat
    ∧ shuffle (all_edges n) g1 = Ok (all, g2) ∧ all ≡ₚ all_edges n
    ∧ randgraph list_of_set n k g
      = Ok (EL.mk n (list_ (if decide (0 < k) then extra_edges all path k
                            else path)) true, g2).
Proof.
  intros Hn Hk.
  destruct (cycle_shuffle_perm (seqZ 0 n) g) as (line & g1 & Hline & Hperm).
  destruct (path_edges_spec line) as (path & Hpath & Hmem & Hsize).
  destruct (shuffle_perm (all_edges n) g1) as (all & g2 & Hall & Hallperm).
  exists line, g1, path, all, g2. split_and!; try done.
  - apply Hsize. rewrite Hperm. apply NoDup_seqZ.
  - unfold randgraph. rewrite decide_True by done.
    rewrite Hline. simpl. rewrite Hpath. simpl.
    rewrite decide_True by by apply length_all_edges.
    by rewrite Hall.
Qed.

(** What the generator guarantees about its result. *)
Lemma randgraph_spec (n k : Z) (g : rng) :
  0 ≤ n → k ≤ n * (n - 1) - (n - 1) →
  ∃ G g' line g1,
    randgraph list_of_set n k g = Ok (G, g')
    ∧ EL.nvertices G = n ∧ EL.directed G = true
    ∧ cycle_shuffle (seqZ 0 n) g = Ok (line, g1) ∧ line ≡ₚ seqZ 0 n
    ∧ (∀ i a b, line !! i = Some a → line !! S i = Some b →
         (a, b) ∈ EL.edges G)
    ∧ NoDup (EL.edges G)
    ∧ (∀ a b, (a, b) ∈ EL.edges G → 0 ≤ a < n ∧ 0 ≤ b < n ∧ a ≠ b)
    ∧ (1 ≤ n → 0 ≤ k → Z.of_nat (length (EL.edges G)) = (n - 1) + k).
Proof.
  intros Hn Hk.
  destruct (randgraph_run n k g Hn Hk)
    as (line & g1 & path & all & g2 & Hline & Hperm & _ & Hpath & Hsize
        & _ & Hall & Hrun).
  assert (NoDup line) as Hnd by (rewrite Hperm; apply NoDup_seqZ).
  assert (length line = Z.to_nat n) as Hlen by by rewrite Hperm, length_seqZ.
  assert (∀ a b, (a, b) ∈ path → (a, b) ∈ all_edges n) as Hpath_all.
  { intros a b (i & Ha & Hb)%Hpath. apply elem_of_all_edges.
    assert (a ∈ seqZ 0 n) as ?%elem_of_seqZ
      by (rewrite <- Hperm; by eapply list_elem_of_lookup_2).
    assert (b ∈ seqZ 0 n) as ?%elem_of_seqZ
      by (rewrite <- Hperm; by eapply list_elem_of_lookup_2).
    split_and!; try lia. intros ->.
    pose proof (NoDup_lookup _ _ _ _ Hnd Ha Hb). lia. }
  set (S := if decide (0 < k) then extra_edges all path k else path) in *.
  assert (path ⊆ S) as Hsub.
  { unfold S. case_decide; [apply extra_edges_subseteq|done]. }
  assert (∀ a b, (a, b) ∈ S → (a, b) ∈ all_edges n) as HS_all.
  { intros a b. unfold S. case_decide; [|by auto].
    intros [?|?]%extra_edges_elem; [by auto|by rewrite <- Hall]. }
  eexists _, g2, line, g1. split; [exact Hrun|]. simpl.
  split_and!; try done.
  - intros i a b Ha Hb. apply elem_of_list_of_set, Hsub, Hpath. by exists i.
  - apply NoDup_list_of_set.
  - intros a b ?%elem_of_list_of_set%HS_all. by apply elem_of_all_edges.
  - intros Hn1 Hk0. rewrite length_list_of_set. unfold S. case_decide.
    + rewrite extra_edges_size; [rewrite Hsize; lia| |done|].
      { rewrite Hall. apply NoDup_all_edges. }
      rewrite length_filter_absent.
      * rewrite Hall, Hsize, Hlen.
        pose proof (length_all_edges n Hn). nia.
      * rewrite Hall. apply NoDup_all_edges.
      * intros [a b] Hab. rewrite elem_of_list_to_set, Hall. by apply Hpath_all.
    + rewrite Hsize. lia.
Qed.


(** *** The specification's claims *)

(** What [GraphEL.__eq__] compares when handed an edge-list graph: the
    directed flags, the vertex counts, and the edges as sets. *)
Lemma GraphEL_eq_true_iff (g h : GraphEL) :
  GraphEL_eq list_of_set g (OfEL h) = Ok (PyBool true)
  ↔ EL.directed g = EL.directed h
    ∧ EL.nvertices g = EL.nvertices h
    ∧ list_to_set (EL.edges g) =@{gset edge} list_to_set (EL.edges h).
Proof.
  unfold GraphEL_eq. simpl. repeat case_bool_decide; simpl; naive_solver.
Qed.

(** C2: for [nvertices ≥ 1], an [nedges] within the bound and any random
    choices, [randgraph] returns a graph [g] with
    [g.toGraphAL().toGraphEL() == g], and its undirected closure
    [u = g.undirected()] satisfies [u.toGraphAL().toGraphEL() == u]; every
    call involved returns, and [==] is true. *)
Theorem randgraph_roundtrip (nvertices nedges : Z) (rnd : rng) :
  1 ≤ nvertices →
  nedges ≤ nvertices * (nvertices - 1) - (nvertices - 1) →
  ∃ g rnd' g_al g_back u u_al u_back,
    randgraph list_of_set nvertices nedges rnd = Ok (g, rnd')
    ∧ toGraphAL list_of_set g = Ok g_al
    ∧ toGraphEL list_of_set g_al = Ok g_back
    ∧ GraphEL_eq list_of_set g_back (OfEL g) = Ok (PyBool true)
    ∧ undirected list_of_set g = Ok u
    ∧ toGraphAL list_of_set u = Ok u_al
    ∧ toGraphEL list_of_set u_al = Ok u_back
    ∧ GraphEL_eq list_of_set u_back (OfEL u) = Ok (PyBool true).
Proof.
  intros Hn Hk.
  destruct (randgraph_spec nvertices nedges rnd) as
    (g & rnd' & _ & _ & Hrun & Hnv & Hdir & _ & _ & _ & _ & Hrange & _);
    [lia|done|].
  assert (in_range nvertices (EL.edges g)) as Hin.
  { intros a b Hab. apply Hrange in Hab. lia. }
  assert (well_formed g) as Hwf.
  { split; [by rewrite Hnv|]. by rewrite Hdir. }
  destruct (roundtrip_well_formed g Hwf) as (g_al & g_back & H1 & H2 & H3 & _).
  assert (undirected list_of_set g
          = Ok (GraphEL_init list_of_set nvertices (EL.edges g) false)) as Hu.
  { unfold undirected. by rewrite Hdir, Hnv. }
  destruct (roundtrip_well_formed _ (well_formed_undirected _ _ Hin))
    as (u_al & u_back & H4 & H5 & H6 & _).
  by eexists g, rnd', g_al, g_back, _, u_al, u_back.
Qed.

(** C3: for [nvertices ≥ 1], [0 ≤ nedges ≤ nvertices·(nvertices−1) −
    (nvertices−1)] and any random choices, [randgraph] returns a graph with
    exactly [(nvertices − 1) + nedges] edges, none of them a self-loop and
    no two of them equal. *)
Theorem randgraph_edge_count (nvertices nedges : Z) (rnd : rng) :
  1 ≤ nvertices →
  0 ≤ nedges ≤ nvertices * (nvertices - 1) - (nvertices - 1) →
  ∃ g rnd',
    randgraph list_of_set nvertices nedges rnd = Ok (g, rnd')
    ∧ Z.of_nat (length (EL.edges g)) = (nvertices - 1) + nedges
    ∧ (∀ v1 v2, (v1, v2) ∈ EL.edges g → v1 ≠ v2)
    ∧ NoDup (EL.edges g).
Proof.
  intros Hn [Hk0 Hk].
  destruct (randgraph_spec nvertices nedges rnd) as
    (g & rnd' & _ & _ & Hrun & _ & _ & _ & _ & _ & Hnd & Hrange & Hcount);
    [lia|done|].
  exists g, rnd'. split_and!; [done|by apply Hcount|..|done].
  intros v1 v2 Hv. apply (Hrange v1 v2 Hv).
Qed.

(** C4: in an edge-list graph constructed with [directed=False], and so in
    every result of [undirected()], each edge [(v1, v2)] comes with its
    reverse [(v2, v1)]. *)
Theorem undirected_symmetric (g : GraphEL) (v1 v2 : Z) :
  ((∃ nvertices edges, g = GraphEL_init list_of_set nvertices edges false)
   ∨ (∃ g0, undirected list_of_set g0 = Ok g)) →
  (v1, v2) ∈ EL.edges g → (v2, v1) ∈ EL.edges g.
Proof.
  intros Hg.
  assert (∃ n es, g = GraphEL_init list_of_set n es false) as (n & es & ->).
  { destruct Hg as [?|[g0 Hg0]]; [done|].
    unfold undirected in Hg0. destruct (EL.directed g0); [|done].
    injection Hg0 as <-. eauto. }
  destruct (GraphEL_init_undirected n es) as (l & -> & _ & Hl). simpl.
  rewrite !Hl. tauto.
Qed.

(** C5: [undirected()] on a graph that is not directed fails its [assert],
    and so does [randgraph] with [nedges] above the bound; on a directed
    graph, and with [nedges] within the bound (for a vertex count that is
    not negative), both return. *)
Theorem precondition_enforcement :
  (∀ g, EL.directed g = false →
     undirected list_of_set g = Raise AssertionError)
  ∧ (∀ nvertices nedges rnd,
       nvertices * (nvertices - 1) - (nvertices - 1) < nedges →
       randgraph list_of_set nvertices nedges rnd = Raise AssertionError)
  ∧ (∀ g, EL.directed g = true → ∃ u, undirected list_of_set g = Ok u)
  ∧ (∀ nvertices nedges rnd,
       0 ≤ nvertices →
       nedges ≤ nvertices * (nvertices - 1) - (nvertices - 1) →
       ∃ g rnd', randgraph list_of_set nvertices nedges rnd = Ok (g, rnd')).
Proof.
  split_and!.
  - intros g Hg. unfold undirected. by rewrite Hg.
  - intros n k rnd Hk. unfold randgraph. rewrite decide_False by lia. done.
  - intros g Hg. unfold undirected. rewrite Hg. eauto.
  - intros n k rnd Hn Hk.
    destruct (randgraph_run n k rnd Hn Hk)
      as (? & ? & ? & ? & ? & _ & _ & _ & _ & _ & _ & _ & Hrun).
    eauto.
Qed.

(** C7: for [nvertices ≥ 1], an [nedges] within the bound and any random
    choices, the permutation [line] that step 1 produced lists every vertex
    exactly once, and each of its consecutive pairs is an edge of the
    returned graph: the graph contains that Hamiltonian path. *)
Theorem randgraph_hamiltonian_path (nvertices nedges : Z) (rnd : rng) :
  1 ≤ nvertices →
  nedges ≤ nvertices * (nvertices - 1) - (nvertices - 1) →
  ∃ g rnd' line rnd1,
    randgraph list_of_set nvertices nedges rnd = Ok (g, rnd')
    ∧ cycle_shuffle (seqZ 0 nvertices) rnd = Ok (line, rnd1)
    ∧ NoDup line
    ∧ (∀ v, v ∈ line ↔ 0 ≤ v < nvertices)
    ∧ (∀ i a b, line !! i = Some a → line !! S i = Some b →
         (a, b) ∈ EL.edges g).
Proof.
  intros Hn Hk.
  destruct (randgraph_spec nvertices nedges rnd) as
    (g & rnd' & line & rnd1 & Hrun & _ & _ & Hline & Hperm & Hpath & _);
    [lia|done|].
  exists g, rnd', line, rnd1. split_and!; try done.
  - rewrite Hperm. apply NoDup_seqZ.
  - intros v. rewrite Hperm, elem_of_seqZ. lia.
Qed.

(** C10: the edges of a graph constructed with [directed=False] hold no
    pair twice, whatever the given edges, repeated pairs included. *)
Theorem undirected_edges_NoDup (nvertices : Z) (edges : list edge) :
  NoDup (EL.edges (GraphEL_init list_of_set nvertices edges false)).
Proof.
  by destruct (GraphEL_init_undirected nvertices edges) as (l & -> & Hl & _).
Qed.

(** *** Further properties of [GraphAL]: construction *)

Lemma of_nat_to_nat_max (n : Z) : Z.of_nat (Z.to_nat n) = Z.max 0 n.
Proof. lia. Qed.

(** The directed constructor indexes its lists with the source of every
    edge and with nothing else: it returns when every source is a subscript
    that a list of [max(0, nvertices)] items accepts (negative ones count
    from the end), and raises [IndexError] as soon as one is not. Targets
    are never looked at. *)
Theorem GraphAL_init_directed_result (nvertices : Z) (edges : list edge) :
  (Forall (λ e, subscript_ok (Z.max 0 nvertices) e.1) edges →
   ∃ nbs, GraphAL_init list_of_set nvertices edges true
          = Ok (AL.mk nvertices nbs true)
        ∧ length nbs = Z.to_nat nvertices)
  ∧ (¬ Forall (λ e, subscript_ok (Z.max 0 nvertices) e.1) edges →
     GraphAL_init list_of_set nvertices edges true = Raise IndexError).
Proof.
  unfold GraphAL_init. split; intros Hes.
  - destruct (directed_loop_wrap edges (replicate (Z.to_nat nvertices) []))
      as (nbs & -> & Hlen & _).
    { by rewrite length_replicate, of_nat_to_nat_max. }
    exists nbs. split; [done|]. by rewrite Hlen, length_replicate.
  - rewrite directed_loop_IndexError; [done|].
    rewrite length_replicate, of_nat_to_nat_max.
    by apply (not_Forall_Exists _) in Hes.
Qed.

(** The undirected constructor indexes with both endpoints of every edge. *)
Theorem GraphAL_init_undirected_result (nvertices : Z) (edges : list edge) :
  (Forall (λ e, subscript_ok (Z.max 0 nvertices) e.1
                ∧ subscript_ok (Z.max 0 nvertices) e.2) edges →
   ∃ nbs, GraphAL_init list_of_set nvertices edges false
          = Ok (AL.mk nvertices nbs false)
        ∧ length nbs = Z.to_nat nvertices)
  ∧ (¬ Forall (λ e, subscript_ok (Z.max 0 nvertices) e.1
                    ∧ subscript_ok (Z.max 0 nvertices) e.2) edges →
     GraphAL_init list_of_set nvertices edges false = Raise IndexError).
Proof.
  clear list_of_set_perm.
  unfold GraphAL_init. split; intros Hes.
  - destruct (undirected_loop_Ok edges (replicate (Z.to_nat nvertices) ∅))
      as (sets & Hrun & Hlen).
    { by rewrite length_replicate, of_nat_to_nat_max. }
    rewrite length_replicate in Hlen.
    exists ((λ s, list_ s) <$> sets). simpl. rewrite Hrun. simpl.
    rewrite (neighbor_lists nvertices sets Hlen). simpl.
    split; [done|]. by rewrite length_fmap.
  - simpl. rewrite undirected_loop_IndexError; [done|].
    rewrite length_replicate, of_nat_to_nat_max.
    by apply (not_Forall_Exists _) in Hes.
Qed.

(** What every constructed [GraphAL] satisfies: it has one neighbour list
    per vertex. *)
Lemma GraphAL_init_length (n : Z) (es : list edge) (d : bool) (g : GraphAL) :
  GraphAL_init list_of_set n es d = Ok g →
  AL.nvertices g = n ∧ AL.directed g = d
  ∧ length (AL.neighbors g) = Z.to_nat n.
Proof.
  clear list_of_set_perm.
  destruct d; unfold GraphAL_init; intros Hg.
  - destruct (decide (Forall (λ e, subscript_ok (Z.max 0 n) e.1) es)) as [H|H].
    + destruct (directed_loop_wrap es (replicate (Z.to_nat n) []))
        as (nbs & Hrun & Hlen & _).
      { by rewrite length_replicate, of_nat_to_nat_max. }
      rewrite Hrun in Hg. injection Hg as <-. simpl.
      by rewrite Hlen, length_replicate.
    + rewrite directed_loop_IndexError in Hg; [done|].
      rewrite length_replicate, of_nat_to_nat_max.
      by apply (not_Forall_Exists _) in H.
  - simpl in Hg.
    destruct (decide (Forall (λ e, subscript_ok (Z.max 0 n) e.1
                                   ∧ subscript_ok (Z.max 0 n) e.2) es)) as [H|H].
    + destruct (undirected_loop_Ok es (replicate (Z.to_nat n) ∅))
        as (sets & Hrun & Hlen).
      { by rewrite length_replicate, of_nat_to_nat_max. }
      rewrite length_replicate in Hlen. rewrite Hrun in Hg. simpl in Hg.
      rewrite (neighbor_lists n sets Hlen) in Hg. injection Hg as <-. simpl.
      by rewrite length_fmap.
    + rewrite undirected_loop_IndexError in Hg; [done|].
      rewrite length_replicate, of_nat_to_nat_max.
      by apply (not_Forall_Exists _) in H.
Qed.

(** [toGraphEL], exactly: it returns whenever there is one neighbour list
    per vertex, and hands the rows of the lists to the [GraphEL]
    constructor. *)
Lemma toGraphEL_edge_rows (g : GraphAL) :
  length (AL.neighbors g) = Z.to_nat (AL.nvertices g) →
  toGraphEL list_of_set g
  = Ok (GraphEL_init list_of_set (AL.nvertices g) (edge_rows (AL.neighbors g))
          (AL.directed g)).
Proof.
  intros Hlen. unfold toGraphEL. by rewrite (toGraphEL_rows _ _ Hlen).
Qed.

(** No constructed adjacency-list graph makes [toGraphEL] raise, and the
    edge-list graph that comes out keeps the vertex count and the directed
    flag. *)
Theorem toGraphEL_of_constructed (nvertices : Z) (edges : list edge)
    (directed : bool) (g : GraphAL) :
  GraphAL_init list_of_set nvertices edges directed = Ok g →
  ∃ g', toGraphEL list_of_set g = Ok g'
      ∧ EL.nvertices g' = nvertices ∧ EL.directed g' = directed
      ∧ ∀ a b, (a, b) ∈ EL.edges g' → 0 ≤ a < nvertices ∨ 0 ≤ b < nvertices.
Proof.
  intros (Hn & Hd & Hlen)%GraphAL_init_length. rewrite <- Hn in Hlen.
  rewrite (toGraphEL_edge_rows g Hlen), Hn, Hd. eexists. split; [done|].
  assert (∀ a b, (a, b) ∈ edge_rows (AL.neighbors g) → 0 ≤ a < nvertices) as Hr.
  { intros a b (i & nb & -> & Hi%lookup_lt_Some & _)%elem_of_edge_rows_from. lia. }
  destruct directed; simpl; split_and!; try done.
  - intros a b Hab. left. by apply (Hr a b).
  - intros a b. rewrite elem_of_list_of_set, elem_of_closure.
    intros [?%elem_of_empty|[?%Hr|?%Hr]]; [done|by left|by right].
Qed.

(** *** Further properties of the conversions *)

Lemma targets_of_replicate (n : Z) (es : list edge) :
  imap (λ (i : nat) (nb : list Z), nb ++ targets (Z.of_nat i) es)
       (replicate (Z.to_nat n) [])
  = (λ v, targets v es) <$> seqZ 0 n.
Proof.
  apply list_eq. intros i. rewrite list_lookup_imap, list_lookup_fmap.
  destruct (decide (i < Z.to_nat n)%nat) as [Hi|Hi].
  - rewrite lookup_replicate_2 by done. rewrite lookup_seqZ_lt by lia. done.
  - rewrite (proj1 (lookup_replicate_None _ _ _)) by lia.
    rewrite lookup_seqZ_ge by lia. done.
Qed.

(** The directed adjacency list, exactly: when every source is a vertex id,
    [neighbors[v]] is the list of targets of the edges leaving [v], in the
    order of the edge list and with its repetitions. *)
Theorem toGraphAL_directed_targets (nvertices : Z) (edges : list edge) :
  (∀ a b, (a, b) ∈ edges → 0 ≤ a < nvertices) →
  toGraphAL list_of_set (EL.mk nvertices edges true)
  = Ok (AL.mk nvertices ((λ v, targets v edges) <$> seqZ 0 nvertices) true).
Proof.
  intros Hes. unfold toGraphAL, GraphAL_init. simpl.
  rewrite directed_loop_targets.
  - simpl. by rewrite targets_of_replicate.
  - rewrite length_replicate. apply Forall_forall. intros [a b] Hab. simpl.
    apply Hes in Hab. lia.
Qed.

(** The directed round trip keeps every edge with its multiplicity: what
    comes back is the edge list grouped by source vertex, a permutation of
    the edges that went in. *)
Theorem directed_roundtrip_permutation (nvertices : Z) (edges : list edge) :
  (∀ a b, (a, b) ∈ edges → 0 ≤ a < nvertices) →
  ∃ g_al edges',
    toGraphAL list_of_set (EL.mk nvertices edges true) = Ok g_al
    ∧ toGraphEL list_of_set g_al = Ok (EL.mk nvertices edges' true)
    ∧ edges' = edge_rows ((λ v, targets v edges) <$> seqZ 0 nvertices)
    ∧ edges' ≡ₚ edges.
Proof.
  intros Hes.
  assert (Forall (λ e : edge,
            0 ≤ e.1 < Z.of_nat (length (replicate (Z.to_nat nvertices) (@nil Z))))
            edges) as Hall.
  { rewrite length_replicate. apply Forall_forall. intros [a b] Hab.
    apply Hes in Hab. simpl. lia. }
  destruct (directed_loop_wrap edges (replicate (Z.to_nat nvertices) []))
    as (nbs & Hrun & _ & Hrows).
  { eapply Forall_impl; [exact Hall|]. unfold subscript_ok. intros; lia. }
  pose proof (directed_loop_targets edges _ Hall) as Hexact.
  rewrite targets_of_replicate in Hexact.
  rewrite Hexact in Hrun. injection Hrun as <-.
  unfold toGraphAL, GraphAL_init. simpl. rewrite Hexact. simpl.
  eexists _, _. split; [done|].
  rewrite toGraphEL_edge_rows by (simpl; by rewrite length_fmap, length_seqZ).
  simpl. split; [done|]. split; [done|].
  rewrite Hrows. unfold edge_rows at 1.
  rewrite edge_rows_from_replicate. simpl.
  rewrite <- (list_fmap_id edges) at 2. apply reflexive_eq.
  apply list_fmap_ext. intros i [a b] Hab%list_elem_of_lookup_2. simpl.
  rewrite wrap_in_range; [done|]. apply Hes in Hab. rewrite length_replicate. lia.
Qed.

(** A negative source is accepted and silently denotes the vertex counted
    from the end: the edges that come back from the directed round trip are
    the edges that went in with every source [v1 < 0] replaced by
    [nvertices + v1]. *)
Theorem directed_roundtrip_wrap (nvertices : Z) (edges : list edge) :
  Forall (λ e, subscript_ok (Z.max 0 nvertices) e.1) edges →
  ∃ g_al edges',
    toGraphAL list_of_set (EL.mk nvertices edges true) = Ok g_al
    ∧ toGraphEL list_of_set g_al = Ok (EL.mk nvertices edges' true)
    ∧ edges' ≡ₚ (λ e, (wrap nvertices e.1, e.2)) <$> edges.
Proof.
  intros Hes. unfold toGraphAL, GraphAL_init. simpl.
  destruct (directed_loop_wrap edges (replicate (Z.to_nat nvertices) []))
    as (nbs & Hrun & Hlen & Hrows).
  { by rewrite length_replicate, of_nat_to_nat_max. }
  rewrite length_replicate in Hlen, Hrows.
  eexists _, (edge_rows nbs). rewrite Hrun. simpl. split; [done|].
  rewrite toGraphEL_edge_rows by done. simpl. split; [done|].
  rewrite Hrows. unfold edge_rows at 1. rewrite edge_rows_from_replicate. simpl.
  apply reflexive_eq, list_fmap_ext. intros i [a b] Hab%list_elem_of_lookup_2.
  simpl. rewrite Forall_forall in Hes. apply Hes in Hab.
  unfold subscript_ok in Hab. simpl in Hab. do 2 f_equal. lia.
Qed.

(** From an adjacency list to an edge list and back is the identity on
    directed graphs: the very same neighbour lists come back. *)
Theorem toGraphEL_toGraphAL_directed (g : GraphAL) :
  AL.directed g = true →
  length (AL.neighbors g) = Z.to_nat (AL.nvertices g) →
  ∃ g_el, toGraphEL list_of_set g = Ok g_el
        ∧ toGraphAL list_of_set g_el = Ok g.
Proof.
  destruct g as [n nbs d]. simpl. intros -> Hlen.
  eexists. split; [by apply toGraphEL_edge_rows|].
  unfold toGraphAL, GraphAL_init. simpl.
  rewrite directed_loop_targets.
  - simpl. do 2 f_equal. apply list_eq. intros i.
    rewrite list_lookup_imap.
    destruct (nbs !! i) as [nb|] eqn:Hnb.
    + rewrite lookup_replicate_2 by (apply lookup_lt_Some in Hnb; lia). simpl.
      f_equal. by apply (targets_edge_rows_from 0 nbs i nb).
    + rewrite (proj1 (lookup_replicate_None _ _ _)); [done|].
      apply lookup_ge_None in Hnb. lia.
  - rewrite length_replicate. apply Forall_forall. intros [a b]. simpl.
    intros (i & nb & -> & Hi%lookup_lt_Some & _)%elem_of_edge_rows_from. lia.
Qed.

(** The test [roundtrip] passes on a directed graph exactly when the source
    of every edge is a vertex id; the targets do not matter. *)
Theorem roundtrip_directed_iff (g : GraphEL) :
  EL.directed g = true →
  roundtrip list_of_set g = Ok ()
  ↔ ∀ a b, (a, b) ∈ EL.edges g → 0 ≤ a < EL.nvertices g.
Proof.
  clear list_of_set_perm.
  destruct g as [n es d]. simpl. intros ->. split.
  - unfold roundtrip.
    intros (g_al & Hal & (g' & Hel & (v & Heq & Hv)%bind_Ok)%bind_Ok)%bind_Ok.
    apply (GraphAL_init_length n es true) in Hal as (Hn & Hd & Hlen).
    rewrite <- Hn in Hlen. rewrite (toGraphEL_edge_rows g_al Hlen) in Hel.
    injection Hel as <-. rewrite Hd, Hn in Heq.
    destruct v as [[|]|]; simpl in Hv; try done.
    apply GraphEL_eq_true_iff in Heq as (_ & _ & Heq). simpl in Heq.
    intros a b Hab.
    assert ((a, b) ∈ edge_rows (AL.neighbors g_al)) as Hrow.
    { apply (elem_of_list_to_set (C:=gset edge)). rewrite <- Heq.
      by apply elem_of_list_to_set. }
    apply elem_of_edge_rows_from in Hrow as (i & nb & -> & Hi%lookup_lt_Some & _).
    lia.
  - intros Hes.
    destruct (toGraphAL_toGraphEL_directed n es Hes) as (g_al & es' & H1 & H2 & Hes').
    unfold roundtrip. rewrite H1. simpl. rewrite H2. simpl.
    rewrite (proj2 (GraphEL_eq_true_iff _ _)); [done|]. simpl.
    split_and!; [done..|]. apply set_eq. intros [a b].
    by rewrite !elem_of_list_to_set, Hes'.
Qed.

(** The branch of [GraphEL.__eq__] for an adjacency-list argument: a
    well-formed edge-list graph compares equal to its own adjacency-list
    form. *)
Theorem GraphEL_eq_own_adjacency_list (g : GraphEL) :
  well_formed g →
  ∃ g_al, toGraphAL list_of_set g = Ok g_al
        ∧ GraphEL_eq list_of_set g (OfAL g_al) = Ok (PyBool true).
Proof.
  intros (g_al & g' & H1 & H2 & _ & H3)%roundtrip_well_formed.
  exists g_al. split; [done|]. unfold GraphEL_eq in *. by rewrite H2.
Qed.

(** The undirected adjacency list: with every endpoint a vertex id, the list
    of a vertex holds each of its neighbours once, and [b] is listed under
    [a] exactly when an edge joins them in either direction, so exactly when
    [a] is listed under [b]. *)
Theorem undirected_adjacency (nvertices : Z) (edges : list edge) :
  in_range nvertices edges →
  ∃ nbs,
    GraphAL_init list_of_set nvertices edges false
    = Ok (AL.mk nvertices nbs false)
    ∧ length nbs = Z.to_nat nvertices
    ∧ ∀ (i : nat) nb, nbs !! i = Some nb →
        NoDup nb
        ∧ ∀ b, b ∈ nb ↔ (Z.of_nat i, b) ∈ edges ∨ (b, Z.of_nat i) ∈ edges.
Proof.
  intros Hes. unfold GraphAL_init. simpl.
  destruct (neighbors_undirected nvertices edges Hes) as (sets & -> & Hlen & Hsets).
  simpl. rewrite (neighbor_lists nvertices sets Hlen). simpl.
  eexists. split; [done|]. split; [by rewrite length_fmap|].
  intros i nb (s & -> & Hs)%list_lookup_fmap_Some.
  split; [apply NoDup_list_of_set|].
  intros b. rewrite elem_of_list_of_set. by apply Hsets.
Qed.

(** *** Further properties of [GraphEL] *)

(** [==] between edge-list graphs always returns a boolean, is reflexive,
    symmetric and transitive, and does not see the order or the repetitions
    of the edges. *)
Theorem GraphEL_eq_equivalence :
  (∀ g h, ∃ b, GraphEL_eq list_of_set g (OfEL h) = Ok (PyBool b))
  ∧ (∀ g, GraphEL_eq list_of_set g (OfEL g) = Ok (PyBool true))
  ∧ (∀ g h, GraphEL_eq list_of_set g (OfEL h)
            = GraphEL_eq list_of_set h (OfEL g))
  ∧ (∀ g h k,
       GraphEL_eq list_of_set g (OfEL h) = Ok (PyBool true) →
       GraphEL_eq list_of_set h (OfEL k) = Ok (PyBool true) →
       GraphEL_eq list_of_set g (OfEL k) = Ok (PyBool true))
  ∧ (∀ n d es es',
       (∀ e, e ∈ es ↔ e ∈ es') →
       GraphEL_eq list_of_set (EL.mk n es d) (OfEL (EL.mk n es' d))
       = Ok (PyBool true)).
Proof.
  split_and!.
  - intros g h. unfold GraphEL_eq. simpl. repeat case_match; eauto.
  - intros g. by apply GraphEL_eq_true_iff.
  - intros g h. unfold GraphEL_eq. simpl.
    repeat case_bool_decide; simpl; congruence.
  - intros g h k (? & ? & ?)%GraphEL_eq_true_iff (? & ? & ?)%GraphEL_eq_true_iff.
    apply GraphEL_eq_true_iff. split_and!; congruence.
  - intros n d es es' Hes. apply GraphEL_eq_true_iff. simpl.
    split_and!; [done..|]. apply set_eq. intros e.
    by rewrite !elem_of_list_to_set.
Qed.

Lemma closure_size (es : list edge) (s0 : gset edge) :
  (size (foldl (λ (s : gset edge) '(v1, v2), {[ (v2, v1) ]} ∪ ({[ (v1, v2) ]} ∪ s))
               s0 es)
   ≤ size s0 + 2 * length es)%nat.
Proof.
  revert s0. induction es as [|[a b] es IH]; intros s0; simpl; [lia|].
  etrans; [apply IH|].
  assert (∀ (x : edge) (s : gset edge), (size ({[ x ]} ∪ s) ≤ S (size s))%nat) as Hadd.
  { intros x s. rewrite size_union_alt, size_singleton.
    assert (s ∖ {[x]} ⊆ s) as Hsub%subseteq_size by set_solver. lia. }
  pose proof (Hadd (b, a) ({[ (a, b) ]} ∪ s0)). pose proof (Hadd (a, b) s0). lia.
Qed.

(** [undirected()] on a directed graph keeps the vertex count and returns
    exactly the given edges and their reverses: no edge is lost, none is
    invented, and there are at most twice as many as before. *)
Theorem undirected_edges (g u : GraphEL) :
  undirected list_of_set g = Ok u →
  EL.nvertices u = EL.nvertices g
  ∧ EL.directed u = false
  ∧ (∀ a b, (a, b) ∈ EL.edges u ↔ (a, b) ∈ EL.edges g ∨ (b, a) ∈ EL.edges g)
  ∧ (length (EL.edges u) ≤ 2 * length (EL.edges g))%nat.
Proof.
  unfold undirected. destruct (EL.directed g); [|done]. intros [= <-].
  unfold GraphEL_init. simpl. split_and!; [done..| |].
  - intros a b. rewrite elem_of_list_of_set, elem_of_closure. set_solver.
  - rewrite length_list_of_set.
    pose proof (closure_size (EL.edges g) ∅) as Hsz. rewrite size_empty in Hsz. lia.
Qed.

(** *** Further properties of [randgraph] *)

(** The generated graph is well formed: it has the vertex count asked for,
    it is directed, and both endpoints of each of its edges are vertex
    ids. *)
Theorem randgraph_well_formed (nvertices nedges : Z) (rnd : rng) :
  0 ≤ nvertices →
  nedges ≤ nvertices * (nvertices - 1) - (nvertices - 1) →
  ∃ g rnd',
    randgraph list_of_set nvertices nedges rnd = Ok (g, rnd')
    ∧ EL.nvertices g = nvertices ∧ EL.directed g = true
    ∧ well_formed g.
Proof.
  intros Hn Hk.
  destruct (randgraph_spec nvertices nedges rnd Hn Hk) as
    (g & rnd' & _ & _ & Hrun & Hnv & Hdir & _ & _ & _ & _ & Hrange & _).
  exists g, rnd'. split_and!; try done. split.
  - rewrite Hnv. intros a b Hab. apply Hrange in Hab. lia.
  - by rewrite Hdir.
Qed.

(** With [nedges] at its bound the generator returns the complete directed
    graph: every pair of distinct vertices, once. *)
Theorem randgraph_complete (nvertices : Z) (rnd : rng) :
  1 ≤ nvertices →
  ∃ g rnd',
    randgraph list_of_set nvertices
      (nvertices * (nvertices - 1) - (nvertices - 1)) rnd = Ok (g, rnd')
    ∧ EL.edges g ≡ₚ all_edges nvertices
    ∧ ∀ a b, (a, b) ∈ EL.edges g
        ↔ 0 ≤ a < nvertices ∧ 0 ≤ b < nvertices ∧ a ≠ b.
Proof.
  intros Hn.
  destruct (randgraph_spec nvertices
              (nvertices * (nvertices - 1) - (nvertices - 1)) rnd) as
    (g & rnd' & _ & _ & Hrun & _ & _ & _ & _ & _ & Hnd & Hrange & Hcount);
    [lia|done|].
  assert (EL.edges g ≡ₚ all_edges nvertices) as Hperm.
  { apply submseteq_length_Permutation.
    - apply NoDup_submseteq; [done|]. intros [a b] Hab.
      by apply elem_of_all_edges, Hrange.
    - pose proof (length_all_edges nvertices). specialize (Hcount Hn). nia. }
  exists g, rnd'. split_and!; [done..|].
  intros a b. by rewrite Hperm, elem_of_all_edges.
Qed.

(** An [nedges] that is zero or negative passes the [assert] and adds
    nothing: the edges of the result are exactly the consecutive pairs of
    the shuffled line. *)
Theorem randgraph_path_only (nvertices nedges : Z) (rnd : rng) :
  0 ≤ nvertices → nedges ≤ 0 →
  ∃ g rnd' line rnd1,
    randgraph list_of_set nvertices nedges rnd = Ok (g, rnd')
    ∧ cycle_shuffle (seqZ 0 nvertices) rnd = Ok (line, rnd1)
    ∧ (∀ a b, (a, b) ∈ EL.edges g
         ↔ ∃ i, line !! i = Some a ∧ line !! S i = Some b)
    ∧ length (EL.edges g) = (Z.to_nat nvertices - 1)%nat.
Proof.
  intros Hn Hk.
  destruct (randgraph_run nvertices nedges rnd Hn) as
    (line & g1 & path & all & g2 & Hline & Hperm & _ & Hpath & Hsize
     & _ & _ & Hrun); [nia|].
  rewrite decide_False in Hrun by lia.
  eexists _, g2, line, g1. split_and!; [done..| |]; simpl.
  - intros a b. by rewrite elem_of_list_of_set, Hpath.
  - by rewrite length_list_of_set, Hsize, Hperm, length_seqZ.
Qed.

(** Without vertices there is nothing to generate: [randgraph(0, nedges)]
    returns the empty graph for every [nedges] the [assert] lets through,
    [nedges = 1] included, and draws no random number. *)
Theorem randgraph_no_vertices (nedges : Z) (rnd : rng) :
  nedges ≤ 1 →
  randgraph list_of_set 0 nedges rnd = Ok (EL.mk 0 [] true, rnd).
Proof.
  intros Hk. unfold randgraph. rewrite decide_True by lia. simpl.
  assert (list_of_set edge _ _ ∅ = []) as Hempty.
  { apply Permutation_nil_r. by rewrite list_of_set_perm, elements_empty. }
  case_decide; by rewrite Hempty.
Qed.

(** Every undirected graph that the constructor builds from edges between
    vertex ids passes the test [roundtrip]. *)
Theorem roundtrip_undirected_constructed (nvertices : Z) (edges : list edge) :
  in_range nvertices edges →
  roundtrip list_of_set (GraphEL_init list_of_set nvertices edges false) = Ok ().
Proof.
  intros (g_al & g' & H1 & H2 & _ & H3)%well_formed_undirected%roundtrip_well_formed.
  unfold roundtrip. rewrite H1.
  change (Ok ?x ≫= ?f) with (f x). cbv beta. rewrite H2.
  change (Ok ?x ≫= ?f) with (f x). cbv beta. by rewrite H3.
Qed.

(** *** The self-test *)

Lemma trial_Ok (rnd : rng) : ∃ rnd', trial list_of_set rnd = Ok rnd'.
Proof.
  unfold trial.
  destruct (randrange_Ok 2 20 rnd) as (nv & g1 & -> & Hnv); [lia|]. simpl.
  destruct (randrange_Ok 0
    (Z.to_nat (Z.of_nat nv * (Z.of_nat nv - 1) - Z.of_nat nv + 1 + 1)) g1)
    as (ne & g2 & -> & Hne); [nia|]. simpl.
  destruct (randgraph_spec (Z.of_nat nv) (Z.of_nat ne) g2) as
    (g & g3 & _ & _ & -> & Hn & Hdir & _ & _ & _ & _ & Hrange & _); [lia|nia|].
  simpl.
  assert (in_range (Z.of_nat nv) (EL.edges g)) as Hin.
  { intros a b Hab. apply Hrange in Hab. lia. }
  rewrite roundtrip_Ok by (split; [by rewrite Hn|by rewrite Hdir]). simpl.
  unfold undirected. rewrite Hdir, Hn. simpl.
  rewrite roundtrip_Ok by by apply well_formed_undirected. simpl. eauto.
Qed.

(** The module's self-test never fails: whatever the random generator
    draws and in whatever order sets are iterated, the demonstration and all
    hundred trials run through without an [AssertionError] or any other
    exception. *)
Theorem script_never_raises (rnd : rng) :
  ∃ rnd', script list_of_set rnd = Ok rnd'.
Proof.
  unfold script.
  destruct (randgraph_spec 4 0 rnd) as
    (g & g1 & _ & _ & -> & Hn & Hdir & _ & _ & _ & _ & Hrange & _); [lia..|].
  simpl.
  assert (in_range 4 (EL.edges g)) as Hin.
  { intros a b Hab. apply Hrange in Hab. lia. }
  destruct (roundtrip_well_formed g) as (g_al & _ & -> & _).
  { split; [by rewrite Hn|by rewrite Hdir]. }
  destruct (roundtrip_well_formed _ (well_formed_undirected 4 _ Hin))
    as (u_al & _ & Hu & _).
  simpl. unfold undirected. rewrite Hdir, Hn.
  change (Ok ?x ≫= ?f) with (f x). cbv beta. rewrite Hu.
  change (Ok ?x ≫= ?f) with (f x). cbv beta.
  destruct (for_preserves (λ _ : rng, True) (seq 0 100)
              (λ _ g, trial list_of_set g) g1) as (rnd' & Hrun & _); [done| |].
  - intros _ g2 _ _. destruct (trial_Ok g2) as [g3 ->]. eauto.
  - by exists rnd'.
Qed.

End Properties.

(** ** Claims that do not depend on the iteration order of sets *)

(** C1: [GraphAL.__eq__] evaluates [self.toGraphEL() == g] and then returns
    nothing. On two equal adjacency-list graphs over the edge [(0, 1)] the
    comparison is [True], and the method's value is [None]. *)
Theorem GraphAL_eq_drops_result
    (list_of_set : ∀ (A : Type) `{Countable A}, gset A → list A) :
  let self := AL.mk 2 [[1]; []] true in
  let g := OfAL (AL.mk 2 [[1]; []] true) in
  (el ← toGraphEL list_of_set self; GraphEL_eq list_of_set el g)
    = Ok (PyBool true)
  ∧ GraphAL_eq list_of_set self g = Ok PyNone.
Proof. split; vm_compute; reflexivity. Qed.

(** Whatever the arguments, [GraphAL.__eq__] never returns a boolean. *)
Lemma GraphAL_eq_never_bool
    (list_of_set : ∀ (A : Type) `{Countable A}, gset A → list A)
    (self : GraphAL) (g : graph) (b : bool) :
  GraphAL_eq list_of_set self g ≠ Ok (PyBool b).
Proof.
  unfold GraphAL_eq. destruct (toGraphEL list_of_set self) as [el|]; [|done].
  simpl. by destruct (GraphEL_eq list_of_set el g).
Qed.



(** C8: the directed edge-list graph on three vertices with edges
    [[(0,1); (1,2)]] converts to the adjacency lists [[[1]; [2]; []]], and
    converting back gives a graph whose edge set is [{(0,1), (1,2)}]. *)
Theorem scenario_three_vertex_path
    (list_of_set : ∀ (A : Type) `{Countable A}, gset A → list A) :
  toGraphAL list_of_set (GraphEL_init list_of_set 3 [(0, 1); (1, 2)] true)
    = Ok (AL.mk 3 [[1]; [2]; []] true)
  ∧ ∃ g, toGraphEL list_of_set (AL.mk 3 [[1]; [2]; []] true) = Ok g
       ∧ list_to_set (EL.edges g) =@{gset edge} {[ (0, 1); (1, 2) ]}.
Proof.
  split; [by vm_compute|].
  exists (EL.mk 3 [(0, 1); (1, 2)] true). split; [by vm_compute|].
  simpl. set_solver.
Qed.

(** C9: [GraphEL(nvertices, edges)] with [directed=True] checks nothing: it
    stores the edges exactly as given, so a graph with an endpoint outside
    [[0, nvertices)] can be built. *)
Theorem GraphEL_init_unchecked
    (list_of_set : ∀ (A : Type) `{Countable A}, gset A → list A) :
  (∀ nvertices edges,
     GraphEL_init list_of_set nvertices edges true
     = EL.mk nvertices edges true)
  ∧ ¬ in_range 2 (EL.edges (GraphEL_init list_of_set 2 [(0, 7)] true)).
Proof.
  split; [done|]. simpl. intros Hrange.
  destruct (Hrange 0 7) as [_ ?]; [set_solver|lia].
Qed.

(** ** The claims at concrete inputs *)

Lemma elements_order_perm (A : Type) `{Countable A} (s : gset A) :
  elements_order A s ≡ₚ elements s.
Proof. done. Qed.

Lemma randgraph_roundtrip_witness :
  ∃ g rnd' g_al g_back u u_al u_back,
    randgraph elements_order 3 2 counting_draws = Ok (g, rnd')
    ∧ toGraphAL elements_order g = Ok g_al
    ∧ toGraphEL elements_order g_al = Ok g_back
    ∧ GraphEL_eq elements_order g_back (OfEL g) = Ok (PyBool true)
    ∧ undirected elements_order g = Ok u
    ∧ toGraphAL elements_order u = Ok u_al
    ∧ toGraphEL elements_order u_al = Ok u_back
    ∧ GraphEL_eq elements_order u_back (OfEL u) = Ok (PyBool true).
Proof.
  apply (randgraph_roundtrip elements_order elements_order_perm 3 2
           counting_draws); lia.
Defined.

Lemma randgraph_edge_count_witness :
  ∃ g rnd',
    randgraph elements_order 3 2 counting_draws = Ok (g, rnd')
    ∧ Z.of_nat (length (EL.edges g)) = (3 - 1) + 2
    ∧ (∀ v1 v2, (v1, v2) ∈ EL.edges g → v1 ≠ v2)
    ∧ NoDup (EL.edges g).
Proof.
  apply (randgraph_edge_count elements_order elements_order_perm 3 2
           counting_draws); lia.
Defined.

Lemma undirected_symmetric_witness :
  (1, 0) ∈ EL.edges (GraphEL_init elements_order 2 [(0, 1)] false).
Proof.
  apply (undirected_symmetric elements_order elements_order_perm _ 0 1).
  - left. by exists 2, [(0, 1)].
  - unfold GraphEL_init, elements_order. simpl. apply elem_of_elements.
    set_solver.
Defined.

Lemma precondition_enforcement_witness :
  undirected elements_order (EL.mk 2 [(0, 1); (1, 0)] false)
    = Raise AssertionError
  ∧ randgraph elements_order 3 5 zero_draws = Raise AssertionError
  ∧ (∃ u, undirected elements_order (EL.mk 2 [(0, 1)] true) = Ok u)
  ∧ (∃ g rnd', randgraph elements_order 3 4 zero_draws = Ok (g, rnd')).
Proof.
  destruct (precondition_enforcement elements_order) as (H1 & H2 & H3 & H4).
  split_and!.
  - apply H1. reflexivity.
  - apply H2. lia.
  - apply H3. reflexivity.
  - apply H4; lia.
Defined.


Lemma randgraph_hamiltonian_path_witness :
  ∃ g rnd' line rnd1,
    randgraph elements_order 4 3 counting_draws = Ok (g, rnd')
    ∧ cycle_shuffle (seqZ 0 4) counting_draws = Ok (line, rnd1)
    ∧ NoDup line
    ∧ (∀ v, v ∈ line ↔ 0 ≤ v < 4)
    ∧ (∀ i a b, line !! i = Some a → line !! S i = Some b →
         (a, b) ∈ EL.edges g).
Proof.
  apply (randgraph_hamiltonian_path elements_order elements_order_perm 4 3
           counting_draws); lia.
Defined.

Lemma undirected_edges_NoDup_witness :
  NoDup (EL.edges (GraphEL_init elements_order 2 [(0, 1); (0, 1); (1, 0)] false)).
Proof.
  apply (undirected_edges_NoDup elements_order elements_order_perm).
Defined.

(** ** The model on concrete inputs *)

(** Subscripts: in range, counted from the end, and out of range. *)
Example getitem_last : getitem [10; 20; 30] (-1) = Ok 30.
Proof. reflexivity. Qed.

Example getitem_past_end : getitem [10; 20; 30] 3 = Raise IndexError.
Proof. reflexivity. Qed.

(** With the draws 0, 1, 2 the cyclic shuffle of four vertices swaps
    positions (0,1), then (1,3), then (2,3). *)
Example cycle_shuffle_four :
  ∃ rnd', cycle_shuffle [0; 1; 2; 3] counting_draws = Ok ([1; 3; 0; 2], rnd').
Proof. eexists. vm_compute. reflexivity. Qed.

(** [randgraph(4, 0)] holds the three path edges of the shuffled line. *)
Example randgraph_four_vertices :
  ∃ g rnd', randgraph elements_order 4 0 counting_draws = Ok (g, rnd')
          ∧ list_to_set (EL.edges g) =@{gset edge} {[ (1, 3); (3, 0); (0, 2) ]}.
Proof. eexists _, _. split; [vm_compute; reflexivity|]. by vm_compute. Qed.

(** The adjacency-list constructor does index its lists: a source vertex
    past the end raises, a target vertex past the end is stored. *)
Example GraphAL_init_source_out_of_range :
  GraphAL_init elements_order 2 [(2, 0)] true = Raise IndexError.
Proof. reflexivity. Qed.

Example GraphAL_init_target_out_of_range :
  GraphAL_init elements_order 2 [(0, 7)] true = Ok (AL.mk 2 [[7]; []] true).
Proof. reflexivity. Qed.

(** An undirected adjacency list holds every edge from both ends. *)
Example GraphAL_init_undirected_pair :
  GraphAL_init elements_order 2 [(0, 1)] false = Ok (AL.mk 2 [[1]; [0]] false).
Proof. by vm_compute. Qed.

(** A negative vertex count passes the first [assert] of [randgraph] and
    fails the second: there are no candidate edges, and
    [nvertices * (nvertices - 1)] is positive. *)
Lemma randgraph_negative_vertices
    (list_of_set : ∀ (A : Type) `{Countable A}, gset A → list A)
    (nvertices nedges : Z) (rnd : rng) :
  nvertices < 0 →
  randgraph list_of_set nvertices nedges rnd = Raise AssertionError.
Proof.
  intros Hn. unfold randgraph. case_decide; [|done].
  destruct (cycle_shuffle_perm (seqZ 0 nvertices) rnd) as (line & g1 & -> & _).
  simpl. destruct (path_edges_spec line) as (path & -> & _). simpl.
  rewrite all_edges_negative by done. simpl.
  rewrite decide_False by nia. done.
Qed.

(** ** Further properties of [cycle_shuffle] *)

Lemma randrange_rest (start stop : nat) (g g' : rng) (j : nat) :
  randrange start stop g = Ok (j, g') → ∀ k, g' k = g (S k).
Proof.
  unfold randrange, randbelow. case_decide; [|done]. by intros [= _ <-].
Qed.

(** [cycle_shuffle] works on any list: it never raises, it returns a
    permutation of the list, it draws exactly [len(l) - 1] random numbers,
    and a list of at most one element comes back as it is. *)
Theorem cycle_shuffle_any_list {A} (l : list A) (rnd : rng) :
  ∃ l' rnd',
    cycle_shuffle l rnd = Ok (l', rnd')
    ∧ l' ≡ₚ l
    ∧ (∀ k, rnd' k = rnd (k + (length l - 1))%nat)
    ∧ ((length l ≤ 1)%nat → l' = l).
Proof.
  unfold cycle_shuffle.
  destruct (for_invariant (λ done (s : list A * rng),
      s.1 ≡ₚ l ∧ ∀ k, s.2 k = rnd (k + length done)%nat)
    (seq 0 (length l - 1))
    (λ i '(l0, g0), '(j, g1) ← randrange (i + 1) (length l) g0;
                     l1 ← swap l0 i j; Ok (l1, g1)) (l, rnd))
    as ([l' rnd'] & Hrun & Hperm & Hrnd).
  - split; [done|]. intros k. simpl. f_equal. lia.
  - intros done i rest [l0 g0] Hseq [Hl0 Hg0]. simpl in *.
    apply seq_split_head in Hseq as [-> Hi].
    destruct (randrange_Ok (length done + 1) (length l) g0)
      as (j & g1 & Hj & Hjr); [lia|].
    rewrite Hj. simpl.
    destruct (swap_Ok l0 (length done) j) as [l1 Hsw].
    { rewrite Hl0. lia. } { rewrite Hl0. lia. }
    rewrite Hsw. simpl. exists (l1, g1). split; [done|]. simpl. split.
    + by rewrite (swap_perm _ _ _ _ Hsw).
    + intros k. rewrite (randrange_rest _ _ _ _ _ Hj), Hg0, length_app. simpl.
      f_equal. lia.
  - exists l', rnd'. simpl in *. rewrite length_seq in Hrnd.
    split_and!; [done..|]. intros Hlen.
    destruct l as [|x [|y l]]; simpl in *; [..|lia]; by injection Hrun as <- _.
Qed.

(** *** [cycle_shuffle] returns a cyclic permutation *)

Lemma randrange_shift (i n : nat) (g : rng) :
  randrange (S (i + 1)) (S n) g
  = '(j, g') ← randrange (i + 1) n g; Ok (S j, g').
Proof.
  unfold randrange. simpl. destruct (decide (i + 1 < n)%nat).
  - by rewrite decide_True by lia.
  - by rewrite decide_False by lia.
Qed.

Lemma swap_cons {A} (h : A) (c : list A) (i j : nat) :
  swap (h :: c) (S i) (S j) = c' ← swap c i j; Ok (h :: c').
Proof.
  unfold swap, item. simpl.
  destruct (c !! j); [|done]. simpl. by destruct (c !! i).
Qed.

(** After its first step the loop of [cycle_shuffle] never touches
    position 0: on [h :: c] the steps [S i] do what the steps [i] do on
    [c]. *)
Lemma cycle_shuffle_loop_shift {A} (n : nat) (h : A) (idx : list nat)
    (c : list A) (g : rng) :
  for_ (S <$> idx)
       (λ i '(l, g), '(j, g) ← randrange (i + 1) (S n) g;
                      l ← swap l i j; Ok (l, g))
       (h :: c, g)
  = '(c', g') ← for_ idx
       (λ i '(l, g), '(j, g) ← randrange (i + 1) n g;
                      l ← swap l i j; Ok (l, g))
       (c, g);
    Ok (h :: c', g').
Proof.
  revert c g. induction idx as [|i idx IH]; intros c g; [done|].
  rewrite fmap_cons. simpl. rewrite randrange_shift.
  destruct (randrange (i + 1) n g) as [[j g']|]; [|done]. simpl.
  rewrite swap_cons. destruct (swap c i j) as [c'|]; [|done]. simpl.
  apply IH.
Qed.

(** One step of [cycle_shuffle] on a list of two or more elements: the head
    [x] changes places with some [y] further right, and the rest of the run
    is [cycle_shuffle] on the tail that now holds [x]. *)
Lemma cycle_shuffle_unroll {A} (x : A) (t : list A) (g : rng) :
  (1 ≤ length t)%nat →
  ∃ j g1 y,
    t !! j = Some y
    ∧ cycle_shuffle (x :: t) g
      = '(t', g2) ← cycle_shuffle (<[j := x]> t) g1; Ok (y :: t', g2).
Proof.
  intros Hlen.
  destruct (length t) as [|m] eqn:Hm; [lia|].
  destruct (randrange_Ok 1 (S (S m)) g) as (j0 & g1 & Hj0 & Hr); [lia|].
  destruct j0 as [|j]; [lia|].
  destruct (lookup_lt_is_Some_2 t j) as [y Hy]; [lia|].
  exists j, g1, y. split; [done|].
  unfold cycle_shuffle. rewrite length_insert. cbn [length]. rewrite Hm.
  replace (S (S m) - 1)%nat with (S m) by lia.
  replace (S m - 1)%nat with m by lia.
  rewrite <- cons_seq. cbn [for_]. change (0 + 1)%nat with 1%nat.
  rewrite Hj0. change (Ok ?a ≫= ?f) with (f a). cbv beta iota.
  assert (swap (x :: t) 0 (S j) = Ok (y :: <[j:=x]> t)) as ->.
  { unfold swap, item. simpl. by rewrite Hy. }
  change (Ok ?a ≫= ?f) with (f a). cbv beta.
  change (Ok ?a ≫= ?f) with (f a). cbv beta.
  rewrite <- fmap_S_seq. apply cycle_shuffle_loop_shift.
Qed.

Lemma insert_head_perm {A} (x y : A) (t : list A) (j : nat) :
  t !! j = Some y → y :: <[j := x]> t ≡ₚ x :: t.
Proof.
  intros Hy. apply (swap_perm (x :: t) _ 0 (S j)).
  unfold swap, item. simpl. by rewrite Hy.
Qed.

(** [cycle_shuffle] produces its permutation "in cyclic order": following,
    from any element, the element that took its place, and so on, one meets
    every element of the list. The shuffle is one single cycle. *)
Theorem cycle_shuffle_cyclic {A} (l : list A) (rnd : rng) :
  NoDup l →
  ∃ l' rnd',
    cycle_shuffle l rnd = Ok (l', rnd')
    ∧ l' ≡ₚ l
    ∧ ∀ a b, a ∈ l → b ∈ l → rtc (takes_place_of l l') a b.
Proof.
  remember (length l) as n eqn:Hn. revert l rnd Hn.
  induction n as [|m IH]; intros l rnd Hn Hnd.
  { destruct l; [|done]. exists [], rnd. split_and!; [done..|].
    by intros a b ?%elem_of_nil. }
  destruct l as [|x t]; [done|]. injection Hn as Hm.
  destruct (decide (m = 0%nat)) as [->|Hm0].
  { symmetry in Hm. apply nil_length_inv in Hm. subst t.
    exists [x], rnd. split_and!; [done..|].
    intros a b ->%list_elem_of_singleton ->%list_elem_of_singleton. done. }
  destruct (cycle_shuffle_unroll x t rnd) as (j & g1 & y & Hy & Heq); [lia|].
  set (t' := <[j:=x]> t) in *.
  pose proof (insert_head_perm x y t j Hy) as Hperm. fold t' in Hperm.
  assert (NoDup (y :: t')) as [Hy' Hnd']%NoDup_cons by by rewrite Hperm.
  destruct (IH t' g1) as (t'' & g2 & Hrun & Hperm' & Hreach);
    [by unfold t'; rewrite length_insert|done|].
  rewrite Hrun in Heq. simpl in Heq.
  exists (y :: t''), g2. split; [done|]. split; [by rewrite Hperm', Hperm|].
  assert (t' !! j = Some x) as Hx.
  { apply list_lookup_insert_eq. by eapply lookup_lt_Some. }
  assert (takes_place_of (x :: t) (y :: t'') x y) as Hfirst by by exists 0%nat.
  assert (∀ b, t'' !! j = Some b →
            takes_place_of (x :: t) (y :: t'') y b) as Hsecond.
  { intros b Hb. by exists (S j). }
  assert (∀ q a b, q ≠ j → t' !! q = Some a → t'' !! q = Some b →
            takes_place_of (x :: t) (y :: t'') a b) as Hother.
  { intros q a b Hq Ha Hb. exists (S q). split; [|done]. simpl.
    unfold t' in Ha. by rewrite list_lookup_insert_ne in Ha. }
  assert (∀ a b, rtc (takes_place_of t' t'') a b →
            rtc (takes_place_of (x :: t) (y :: t'')) a b) as Hlift.
  { intros a b Hab.
    induction Hab as [a|a a' b (q & Ha & Ha') _ IHab]; [done|].
    destruct (decide (q = j)) as [->|Hq].
    - assert (a = x) as -> by congruence.
      eapply rtc_l; [exact Hfirst|]. eapply rtc_l; [by apply Hsecond|done].
    - eapply rtc_l; [by eapply Hother|done]. }
  assert (x ∈ t') as Hxin by by eapply list_elem_of_lookup_2.
  destruct (lookup_lt_is_Some_2 t'' j) as [z Hz].
  { rewrite Hperm'. by eapply lookup_lt_Some. }
  assert (z ∈ t') as Hzin by (rewrite <- Hperm'; by eapply list_elem_of_lookup_2).
  intros a b Ha Hb. rewrite <- Hperm in Ha, Hb.
  apply elem_of_cons in Ha as [->|Ha]; apply elem_of_cons in Hb as [->|Hb].
  - done.
  - eapply rtc_l; [by apply Hsecond|]. by apply Hlift, Hreach.
  - eapply rtc_r; [|exact Hfirst]. by apply Hlift, Hreach.
  - by apply Hlift, Hreach.
Qed.

(** ** The further properties at concrete inputs *)

Lemma sample_in_range : in_range 3 [(0, 1); (1, 2)].
Proof.
  intros a b Hab. repeat (apply elem_of_cons in Hab as [[= -> ->]|Hab]; [lia|]).
  by apply elem_of_nil in Hab.
Qed.

Lemma sample_sources (a b : Z) : (a, b) ∈ [(1, 2); (0, 1); (1, 0)] → 0 ≤ a < 3.
Proof.
  intros Hab. repeat (apply elem_of_cons in Hab as [[= -> ->]|Hab]; [lia|]).
  by apply elem_of_nil in Hab.
Qed.

Lemma roundtrip_directed_iff_witness :
  roundtrip elements_order (EL.mk 3 [(1, 2); (0, 1); (1, 0)] true) = Ok ()
  ↔ ∀ a b, (a, b) ∈ [(1, 2); (0, 1); (1, 0)] → 0 ≤ a < 3.
Proof.
  apply (roundtrip_directed_iff elements_order
           (EL.mk 3 [(1, 2); (0, 1); (1, 0)] true)).
  reflexivity.
Defined.

Lemma roundtrip_undirected_constructed_witness :
  roundtrip elements_order (GraphEL_init elements_order 3 [(0, 1); (1, 2)] false)
  = Ok ().
Proof.
  apply (roundtrip_undirected_constructed elements_order elements_order_perm).
  exact sample_in_range.
Defined.

Lemma directed_roundtrip_permutation_witness :
  ∃ g_al edges',
    toGraphAL elements_order (EL.mk 3 [(1, 2); (0, 1); (1, 0)] true) = Ok g_al
    ∧ toGraphEL elements_order g_al = Ok (EL.mk 3 edges' true)
    ∧ edges' = edge_rows ((λ v, targets v [(1, 2); (0, 1); (1, 0)]) <$> seqZ 0 3)
    ∧ edges' ≡ₚ [(1, 2); (0, 1); (1, 0)].
Proof.
  apply (directed_roundtrip_permutation elements_order 3). exact sample_sources.
Defined.

Lemma toGraphAL_directed_targets_witness :
  toGraphAL elements_order (EL.mk 3 [(1, 2); (0, 1); (1, 0)] true)
  = Ok (AL.mk 3 ((λ v, targets v [(1, 2); (0, 1); (1, 0)]) <$> seqZ 0 3) true).
Proof.
  apply (toGraphAL_directed_targets elements_order 3). exact sample_sources.
Defined.

Lemma directed_roundtrip_wrap_witness :
  ∃ g_al edges',
    toGraphAL elements_order (EL.mk 3 [(-1, 0); (1, 2)] true) = Ok g_al
    ∧ toGraphEL elements_order g_al = Ok (EL.mk 3 edges' true)
    ∧ edges' ≡ₚ (λ e, (wrap 3 e.1, e.2)) <$> [(-1, 0); (1, 2)].
Proof.
  apply (directed_roundtrip_wrap elements_order 3 [(-1, 0); (1, 2)]).
  repeat constructor; unfold subscript_ok; simpl; lia.
Defined.

Lemma toGraphEL_toGraphAL_directed_witness :
  ∃ g_el, toGraphEL elements_order (AL.mk 2 [[1; 1]; [0]] true) = Ok g_el
        ∧ toGraphAL elements_order g_el = Ok (AL.mk 2 [[1; 1]; [0]] true).
Proof.
  apply (toGraphEL_toGraphAL_directed elements_order
           (AL.mk 2 [[1; 1]; [0]] true)); reflexivity.
Defined.

Lemma GraphAL_init_directed_result_witness :
  (∃ nbs, GraphAL_init elements_order 2 [(0, 5); (-2, 1)] true
          = Ok (AL.mk 2 nbs true) ∧ length nbs = Z.to_nat 2)
  ∧ GraphAL_init elements_order 2 [(0, 1); (2, 0)] true = Raise IndexError.
Proof.
  split.
  - apply (GraphAL_init_directed_result elements_order 2 [(0, 5); (-2, 1)]).
    repeat constructor; unfold subscript_ok; simpl; lia.
  - apply (GraphAL_init_directed_result elements_order 2 [(0, 1); (2, 0)]).
    intros [_ [H _]%Forall_cons]%Forall_cons. unfold subscript_ok in H.
    simpl in H. lia.
Defined.

Lemma GraphAL_init_undirected_result_witness :
  (∃ nbs, GraphAL_init elements_order 2 [(0, 1); (-1, 0)] false
          = Ok (AL.mk 2 nbs false) ∧ length nbs = Z.to_nat 2)
  ∧ GraphAL_init elements_order 2 [(0, 5)] false = Raise IndexError.
Proof.
  split.
  - apply (GraphAL_init_undirected_result elements_order 2 [(0, 1); (-1, 0)]).
    repeat constructor; unfold subscript_ok; simpl; lia.
  - apply (GraphAL_init_undirected_result elements_order 2 [(0, 5)]).
    intros [[_ H] _]%Forall_cons. unfold subscript_ok in H. simpl in H. lia.
Defined.

Lemma toGraphEL_of_constructed_witness :
  ∃ g', toGraphEL elements_order (AL.mk 2 [[1]; []] true) = Ok g'
      ∧ EL.nvertices g' = 2 ∧ EL.directed g' = true
      ∧ ∀ a b, (a, b) ∈ EL.edges g' → 0 ≤ a < 2 ∨ 0 ≤ b < 2.
Proof.
  apply (toGraphEL_of_constructed elements_order elements_order_perm
           2 [(0, 1)] true).
  reflexivity.
Defined.

Lemma undirected_adjacency_witness :
  ∃ nbs,
    GraphAL_init elements_order 3 [(0, 1); (1, 2)] false = Ok (AL.mk 3 nbs false)
    ∧ length nbs = Z.to_nat 3
    ∧ ∀ (i : nat) nb, nbs !! i = Some nb →
        NoDup nb
        ∧ ∀ b, b ∈ nb ↔ (Z.of_nat i, b) ∈ [(0, 1); (1, 2)]
                        ∨ (b, Z.of_nat i) ∈ [(0, 1); (1, 2)].
Proof.
  apply (undirected_adjacency elements_order elements_order_perm 3).
  exact sample_in_range.
Defined.

Lemma GraphEL_eq_equivalence_witness :
  GraphEL_eq elements_order (EL.mk 2 [(0, 1); (1, 0); (0, 1)] true)
    (OfEL (EL.mk 2 [(1, 0); (0, 1)] true)) = Ok (PyBool true).
Proof.
  destruct (GraphEL_eq_equivalence elements_order) as (_ & _ & _ & Htrans & Hsame).
  apply (Htrans _ (EL.mk 2 [(0, 1); (1, 0)] true)); apply Hsame; set_solver.
Defined.

Lemma GraphEL_eq_own_adjacency_list_witness :
  ∃ g_al, toGraphAL elements_order (EL.mk 3 [(0, 1); (1, 2)] true) = Ok g_al
        ∧ GraphEL_eq elements_order (EL.mk 3 [(0, 1); (1, 2)] true) (OfAL g_al)
          = Ok (PyBool true).
Proof.
  apply (GraphEL_eq_own_adjacency_list elements_order elements_order_perm).
  split; [exact sample_in_range|discriminate].
Defined.

Lemma undirected_edges_witness :
  let g := EL.mk 3 [(0, 1); (1, 2)] true in
  let u := GraphEL_init elements_order 3 [(0, 1); (1, 2)] false in
  EL.nvertices u = EL.nvertices g
  ∧ EL.directed u = false
  ∧ (∀ a b, (a, b) ∈ EL.edges u ↔ (a, b) ∈ EL.edges g ∨ (b, a) ∈ EL.edges g)
  ∧ (length (EL.edges u) ≤ 2 * length (EL.edges g))%nat.
Proof.
  apply (undirected_edges elements_order elements_order_perm). reflexivity.
Defined.

Lemma randgraph_well_formed_witness :
  ∃ g rnd',
    randgraph elements_order 4 3 counting_draws = Ok (g, rnd')
    ∧ EL.nvertices g = 4 ∧ EL.directed g = true ∧ well_formed g.
Proof.
  apply (randgraph_well_formed elements_order elements_order_perm 4 3); lia.
Defined.

Lemma randgraph_complete_witness :
  ∃ g rnd',
    randgraph elements_order 3 (3 * (3 - 1) - (3 - 1)) counting_draws = Ok (g, rnd')
    ∧ EL.edges g ≡ₚ all_edges 3
    ∧ ∀ a b, (a, b) ∈ EL.edges g ↔ 0 ≤ a < 3 ∧ 0 ≤ b < 3 ∧ a ≠ b.
Proof.
  apply (randgraph_complete elements_order elements_order_perm 3). lia.
Defined.

Lemma randgraph_path_only_witness :
  ∃ g rnd' line rnd1,
    randgraph elements_order 4 (-2) counting_draws = Ok (g, rnd')
    ∧ cycle_shuffle (seqZ 0 4) counting_draws = Ok (line, rnd1)
    ∧ (∀ a b, (a, b) ∈ EL.edges g
         ↔ ∃ i, line !! i = Some a ∧ line !! S i = Some b)
    ∧ length (EL.edges g) = (Z.to_nat 4 - 1)%nat.
Proof.
  apply (randgraph_path_only elements_order elements_order_perm 4 (-2)); lia.
Defined.

Lemma randgraph_no_vertices_witness :
  randgraph elements_order 0 1 counting_draws = Ok (EL.mk 0 [] true, counting_draws).
Proof.
  apply (randgraph_no_vertices elements_order elements_order_perm 1). lia.
Defined.

Lemma randgraph_negative_vertices_witness :
  randgraph elements_order (-1) 0 zero_draws = Raise AssertionError.
Proof. apply (randgraph_negative_vertices elements_order (-1) 0). lia. Defined.

Lemma script_never_raises_witness :
  ∃ rnd', script elements_order counting_draws = Ok rnd'.
Proof.
  apply (script_never_raises elements_order elements_order_perm counting_draws).
Defined.

Lemma cycle_shuffle_any_list_witness :
  ∃ l' rnd', cycle_shuffle [5] counting_draws = Ok (l', rnd') ∧ l' = [5].
Proof.
  destruct (cycle_shuffle_any_list [5] counting_draws)
    as (l' & rnd' & Hrun & _ & _ & Hshort).
  exists l', rnd'. split; [done|]. apply Hshort. simpl. lia.
Defined.

Lemma cycle_shuffle_cyclic_witness :
  ∃ l' rnd',
    cycle_shuffle (seqZ 0 4) counting_draws = Ok (l', rnd')
    ∧ l' ≡ₚ seqZ 0 4
    ∧ ∀ a b, a ∈ seqZ 0 4 → b ∈ seqZ 0 4 →
        rtc (takes_place_of (seqZ 0 4) l') a b.
Proof.
  apply (cycle_shuffle_cyclic (seqZ 0 4) counting_draws). apply NoDup_seqZ.
Defined.
